(** * NodeSet validator summary: a shallow embedding of
    [nodeset_validator_summary.py] and the properties of its fetcher,
    relevance filter and operator aggregation.

    Conventions of the embedding.
    - Python [str] values are [string]s whose characters are code points
      below 256; [str.lower], slicing, [in], [len] and [int] are written out
      for that range, [int] as CPython 3.11 and later convert a string (white
      space stripped, optional sign, underscores between digits, at most 4300
      digits).
    - Python [int] is [Z].  The quotient printed on the last line is a Python
      [float], the double nearest to the exact quotient; it is kept here as
      that exact rational [Q].
    - As the indexing API documents its replies, a transaction is a [dict]
      whose values are strings and whose keys may be absent
      ([TransactionRecord]), and a decoded page is a [dict] with optional
      ['status'], ['message'] and ['result'] ([PageData]).  The aggregation is
      embedded over such records only.  The fetcher is embedded twice: over
      these replies ([fetch_loop]) and over replies whose body is any JSON
      value ([raw_fetch_loop]), where [data.get] and [len] can raise.
    - [address_stats] and the [Counter] are [gmap]s: both are only read through
      lookups, [values()] and sorted keys, so insertion order is not observable.
    - Effects are explicit: every [requests.get], [sleep], [logging] call and
      [print] is an [event] of a trace, exceptions are an [outcome].
    - [web3.to_checksum_address] belongs to the web3 library, not to this
      program: it is the one method of the class [Web3], over which the
      aggregation is parametric ([None] when it raises). *)

From Stdlib Require Import ZArith QArith Lia Ascii String.
From stdpp Require Import gmap strings list fin_maps sorting.

Local Open Scope string_scope.
Local Open Scope list_scope.
Local Open Scope Z_scope.

(** ** Python string primitives *)

Module PyStr.

(** [str.lower] on one code point below 256: [A-Z] and the Latin-1 capitals
    (all of U+00C0..U+00DE but the multiplication sign U+00D7) move by 32. *)
Definition lower_char (c : ascii) : ascii :=
  let n := N_of_ascii c in
  if (((65 <=? n) && (n <=? 90)) ||
      ((192 <=? n) && (n <=? 222) && negb (n =? 215)))%N
  then ascii_of_N (n + 32) else c.

(** [s.lower()] *)
Fixpoint lower (s : string) : string :=
  match s with
  | EmptyString => EmptyString
  | String c s' => String (lower_char c) (lower s')
  end.

(** [len(s)] *)
Definition len (s : string) : Z := Z.of_nat (String.length s).

(** [s[:n]] for a literal bound [n >= 0] *)
Fixpoint slice_to (n : nat) (s : string) : string :=
  match n, s with
  | S n', String c s' => String c (slice_to n' s')
  | _, _ => EmptyString
  end.

(** [s[n:]] for a literal bound [n >= 0] *)
Fixpoint slice_from (n : nat) (s : string) : string :=
  match n, s with
  | S n', String _ s' => slice_from n' s'
  | _, _ => s
  end.

(** [s.startswith(p)] *)
Fixpoint startswith (p s : string) : bool :=
  match p, s with
  | EmptyString, _ => true
  | String a p', String b s' => if Ascii.eqb a b then startswith p' s' else false
  | String _ _, EmptyString => false
  end.

(** [needle in hay]: some suffix of [hay] starts with [needle]. *)
Fixpoint contains (needle hay : string) : bool :=
  startswith needle hay ||
  match hay with
  | EmptyString => false
  | String _ hay' => contains needle hay'
  end.

(** Truth value of a string: non-empty. *)
Definition truthy (s : string) : bool :=
  match s with EmptyString => false | _ => true end.

(** White space as [int] strips it: the blanks of C ([\t \n \v \f \r] and
    the space), and NEL (U+0085) and the no-break space (U+00A0), which [int]
    turns into spaces first.  The separators U+001C..U+001F are not stripped:
    [int] leaves the characters below 127 as they are. *)
Definition is_space (c : ascii) : bool :=
  let n := N_of_ascii c in
  (((9 <=? n) && (n <=? 13)) || (n =? 32) || (n =? 133) || (n =? 160))%N.

Fixpoint lstrip (s : string) : string :=
  match s with
  | String c s' => if is_space c then lstrip s' else s
  | EmptyString => EmptyString
  end.

Fixpoint rstrip (s : string) : string :=
  match s with
  | EmptyString => EmptyString
  | String c s' =>
      match rstrip s' with
      | EmptyString => if is_space c then EmptyString else String c EmptyString
      | r => String c r
      end
  end.

Definition strip (s : string) : string := rstrip (lstrip s).

Definition digit_of (c : ascii) : option Z :=
  let n := N_of_ascii c in
  if ((48 <=? n) && (n <=? 57))%N then Some (Z.of_N n - 48) else None.

(** The digits of a decimal literal: groups of digits, single underscores
    allowed between two digits only.  [prev] tells whether the character
    just read was a digit. *)
Fixpoint digits (s : string) (acc : Z) (prev : bool) : option Z :=
  match s with
  | EmptyString => if prev then Some acc else None
  | String c s' =>
      match digit_of c with
      | Some d => digits s' (10 * acc + d) true
      | None =>
          if Ascii.eqb c "_"%char && prev then digits s' acc false else None
      end
  end.

(** The number of digit characters of a literal; underscores do not count. *)
Fixpoint count_digits (s : string) : Z :=
  match s with
  | EmptyString => 0
  | String c s' =>
      match digit_of c with Some _ => 1 | None => 0 end + count_digits s'
  end.

(** [sys.get_int_max_str_digits()], at its default: CPython 3.11 and later
    refuse to convert a decimal literal of more digits. *)
Definition MAX_STR_DIGITS : Z := 4300.

(** A literal without its sign. *)
Definition unsigned (r : string) : option Z :=
  if MAX_STR_DIGITS <? count_digits r then None else digits r 0 false.

(** [int(s)] for a string argument, base 10: [None] stands for the
    [ValueError] it raises. *)
Definition int (s : string) : option Z :=
  match strip s with
  | String "-" r => Z.opp <$> unsigned r
  | String "+" r => unsigned r
  | r => unsigned r
  end.

End PyStr.


(** ** Constants *)

Definition MULTICALL_ADDRESS : string := "0xcA11bde05977b3631167028862bE2a173976CA11".
Definition NODESET_VAULT_ADDRESS : string := "0xB266274F55e784689e97b7E363B0666d92e6305B".
Definition AGGREGATE_SIGNATURE : string := "0x252dba42".
Definition PAGE_OFFSET : Z := 1000.
Definition MAX_RETRIES : Z := 3.
Definition RETRY_DELAY : Z := 2.

(** ** Data model *)

(** One element of the ['result'] array, as the API documents it: a dict
    whose values are strings.  A field is [None] when the key is absent from
    the dict. *)
Record TransactionRecord := {
  tx_from : option string;
  tx_input : option string;
  tx_hash : option string;
  tx_isError : option string
}.

(** What [response.json()] yields, as the API documents it. *)
Record PageData := {
  status : option string;
  message : option string;
  result : option (list TransactionRecord)
}.

(** What a [requests.get] meets: no response at all (connection failure,
    timeout: a [RequestException] that is not an [HTTPError]), or a response
    with a status code and a body that decodes as JSON or does not.
    Since requests 2.27 the decoding error is a [RequestException] as well as a
    [ValueError]; before, it is a [ValueError] only.  The flag says which. *)
Inductive body :=
| NotJson (from_requests : bool)
| Json (data : PageData).

Inductive reply :=
| Unreachable
| Response (status_code : Z) (b : body).

(** A reply of any shape.  The replies above are the ones the indexing API
    documents; what [response.json()] can yield in general is any value
    decoded from JSON.  A dict is the list of its items in insertion order,
    with distinct keys; of a number only that it is a number matters here. *)
#[local] Set Warnings "-register-all".

Inductive json :=
| JNull
| JBool (b : bool)
| JNumber (n : Z)
| JString (s : string)
| JArray (items : list json)
| JObject (members : list (string * json)).

Inductive raw_body :=
| RawNotJson (from_requests : bool)
| RawJson (data : json).

Inductive raw_reply :=
| RawUnreachable
| RawResponse (status_code : Z) (b : raw_body).

(** The value stored per operator: the dict [{'successful': n}]. *)
Record OperatorStats := { successful : Z }.

Global Instance OperatorStats_eq_dec : EqDecision OperatorStats.
Proof. solve_decision. Defined.

(** ** Exceptions, events and the effect monad *)

Inductive exn :=
| HTTPError (status_code : Z)
| RequestException
| JSONDecodeError (from_requests : bool)
| KeyError (key : string)
| ValueError
| IndexError
| ZeroDivisionError
| ConnectionError
| AttributeError
| TypeError.

(** [isinstance(e, HTTPError)] *)
Definition is_HTTPError (e : exn) : bool :=
  match e with HTTPError _ => true | _ => false end.

(** [isinstance(e, RequestException)]; [HTTPError] is a subclass. *)
Definition is_RequestException (e : exn) : bool :=
  match e with
  | HTTPError _ | RequestException => true
  | JSONDecodeError from_requests => from_requests
  | _ => false
  end.

(** [isinstance(e, ValueError)] *)
Definition is_ValueError (e : exn) : bool :=
  match e with JSONDecodeError _ | ValueError => true | _ => false end.

Inductive level := INFO | WARNING | ERROR.

(** Log records, by format string and arguments. *)
Inductive log_message :=
| MsgConnectFailed
| MsgNoMore (page : Z) (msg : option string)
| MsgNoMoreJson (page : Z) (msg : option json)
| MsgFetched (count page : Z)
| MsgFetchFailed (page : Z) (e : exn)
| MsgInvalidJson (page : Z) (e : exn)
| MsgFound (from_address hash : string)
| MsgText (text : string).

(** Lines written to standard output. *)
Inductive line :=
| LineText (text : string)
| LineOperators (validator_count operator_count : Z)
| LineTotal (total_validators : Z)
| LineMax (max_validators : Z)
| LineExposure (ratio : Q).

Inductive event :=
| HttpGet (page : Z)
| Sleep (seconds : Z)
| Logged (lvl : level) (msg : log_message)
| Printed (l : line).

(** How a computation ends: with a value, with an exception that leaves it,
    or waiting for a reply that the script of replies does not contain. *)
Inductive outcome (A : Type) :=
| Returned (a : A)
| Raised (e : exn)
| Pending.
Arguments Returned {A} a.
Arguments Raised {A} e.
Arguments Pending {A}.

Definition M (A : Type) : Type := (list event * outcome A)%type.

Definition prepend {A} (t : list event) (m : M A) : M A := ((t ++ m.1)%list, m.2).

Global Instance M_ret : MRet M := λ A a, ([], Returned a).

Global Instance M_bind : MBind M := λ A B f m,
  match m.2 with
  | Returned a => prepend m.1 (f a)
  | Raised e => (m.1, Raised e)
  | Pending => (m.1, Pending)
  end.

Definition emit (e : event) : M unit := ([e], Returned tt).
Definition raise {A} (e : exn) : M A := ([], Raised e).

(** [try: m except ... : h e] *)
Definition try_except {A} (m : M A) (h : exn → M A) : M A :=
  match m.2 with
  | Raised e => prepend m.1 (h e)
  | _ => m
  end.

(** [d[key]] *)
Definition getitem {A} (key : string) (field : option A) : M A :=
  match field with Some v => mret v | None => raise (KeyError key) end.

(** ** TransactionHistoryFetcher: [fetch_multicall_transactions] *)

(** [response.raise_for_status()] raises for the 4xx and 5xx codes. *)
Definition raises_for_status (status_code : Z) : bool :=
  (400 <=? status_code) && (status_code <? 600).

(** How one pass through the body of the [for] loop ends: [return], [break]
    (after [page += 1]) or [continue]. *)
Inductive flow :=
| Return (all_transactions : list TransactionRecord)
| Break (all_transactions : list TransactionRecord)
| Continue.

(** Lines 76-88: one request for [page] answered by [r]. *)
Definition try_body (r : reply) (page : Z)
    (all_transactions : list TransactionRecord) : M flow :=
  emit (HttpGet page);;
  match r with
  | Unreachable => raise RequestException
  | Response status_code b =>
      if raises_for_status status_code then raise (HTTPError status_code)
      else
        match b with
        | NotJson from_requests => raise (JSONDecodeError from_requests)
        | Json data =>
            if decide (status data = Some "0") then
              emit (Logged WARNING (MsgNoMore page (message data)));;
              mret (Return all_transactions)
            else
              let transactions := default [] (result data) in
              emit (Logged INFO (MsgFetched (Z.of_nat (length transactions)) page));;
              let all_transactions := (all_transactions ++ transactions)%list in
              if Z.of_nat (length transactions) <? PAGE_OFFSET
              then mret (Return all_transactions)
              else mret (Break all_transactions)
        end
  end.

(** Lines 89-97: the two [except] clauses, tried in order; an exception that
    matches neither leaves the function. *)
Definition handler (page attempt : Z)
    (all_transactions : list TransactionRecord) (e : exn) : M flow :=
  if is_HTTPError e || is_RequestException e then
    if is_HTTPError e
       && match e with HTTPError status_code => status_code =? 429 | _ => false end
       && (attempt <? MAX_RETRIES - 1)
    then
      emit (Sleep (RETRY_DELAY * 2 ^ attempt));;
      mret Continue
    else
      emit (Logged ERROR (MsgFetchFailed page e));;
      mret (Return all_transactions)
  else if is_ValueError e then
    emit (Logged ERROR (MsgInvalidJson page e));;
    mret (Return all_transactions)
  else raise e.

(** Lines 75-97: one pass through the body of the [for] loop. *)
Definition attempt_once (r : reply) (page attempt : Z)
    (all_transactions : list TransactionRecord) : M flow :=
  try_except (try_body r page all_transactions)
             (handler page attempt all_transactions).

(** The [while True] loop around [for attempt in range(MAX_RETRIES)], one
    reply of the script per request.  [Break] restarts the [for] loop on the
    next page; [Continue] moves to the next attempt on the same page, and a
    [for] loop that ran out of attempts would start again on the same page. *)
Fixpoint fetch_loop (script : list reply) (page attempt : Z)
    (all_transactions : list TransactionRecord) : M (list TransactionRecord) :=
  match script with
  | [] => ([], Pending)
  | r :: script =>
      fl ← attempt_once r page attempt all_transactions;
      match fl with
      | Return all_transactions => mret all_transactions
      | Break all_transactions => fetch_loop script (page + 1) 0 all_transactions
      | Continue =>
          fetch_loop script page
            (if attempt + 1 <? MAX_RETRIES then attempt + 1 else 0)
            all_transactions
      end
  end.

Definition fetch_multicall_transactions (script : list reply)
    : M (list TransactionRecord) :=
  fetch_loop script 1 0 [].

(** *** The fetcher on replies of any shape

    Lines 59-99 once more, with nothing assumed of what [response.json()]
    yields: [data.get] raises [AttributeError] on a value that is not a dict,
    [len] raises [TypeError] on a value without length, and neither [except]
    clause catches these. *)














(** A reply that is never retried: no response, an HTTP error other than 429,
    or a body that is not JSON. *)
Definition raw_fails (r : raw_reply) : bool :=
  match r with
  | RawUnreachable => true
  | RawResponse status_code b =>
      if raises_for_status status_code then negb (status_code =? 429)
      else match b with RawNotJson _ => true | RawJson _ => false end
  end.

(** The documented replies among the replies of any shape. *)
Definition field (key : string) (value : option string) : list (string * json) :=
  match value with Some s => [(key, JString s)] | None => [] end.

Definition json_of_record (tx : TransactionRecord) : json :=
  JObject (field "from" (tx_from tx) ++ field "input" (tx_input tx)
           ++ field "hash" (tx_hash tx) ++ field "isError" (tx_isError tx)).

Definition json_of_page (data : PageData) : json :=
  JObject (field "status" (status data) ++ field "message" (message data)
           ++ match result data with
              | Some transactions =>
                  [("result", JArray (json_of_record <$> transactions))]
              | None => []
              end).

Definition raw_of_reply (r : reply) : raw_reply :=
  match r with
  | Unreachable => RawUnreachable
  | Response status_code (NotJson from_requests) =>
      RawResponse status_code (RawNotJson from_requests)
  | Response status_code (Json data) =>
      RawResponse status_code (RawJson (json_of_page data))
  end.




(** ** RelevanceFilter: [is_nodeset_transaction] and the selector test *)

(** [tx.get('input', '')] *)
Definition input_of (tx : TransactionRecord) : string := default "" (tx_input tx).

Definition is_nodeset_transaction (tx : TransactionRecord) (vault_address : string) : bool :=
  let input_data := PyStr.lower (input_of tx) in
  if PyStr.contains (PyStr.slice_from 2 (PyStr.lower vault_address)) input_data
  then true
  else false.

(** Line 134: the condition of the [if] in the aggregation loop. *)
Definition is_aggregate_call (input_data : string) : bool :=
  PyStr.truthy input_data
  && (10 <=? PyStr.len input_data)
  && String.eqb (PyStr.lower (PyStr.slice_to 10 input_data))
                (PyStr.lower AGGREGATE_SIGNATURE).

(** ** OperatorAggregator: [summarize_validators_by_operator] *)

Definition NO_TRANSACTIONS_FOUND : string :=
  "No NodeSet-related Aggregate transactions found.".

(** [Counter(iterable)]: every element adds one to its own entry, a missing
    entry counting as 0. *)
Definition Counter (iterable : list Z) : gmap Z Z :=
  foldl (λ c v, <[v := default 0 (c !! v) + 1]> c) ∅ iterable.

(** [address_stats.values()] *)
Definition values (address_stats : gmap string OperatorStats) : list OperatorStats :=
  (map_to_list address_stats).*2.

(** [validator_counts.keys()] *)
Definition keys (validator_counts : gmap Z Z) : list Z :=
  (map_to_list validator_counts).*1.

(** [sorted(...)] on integers *)
Definition sorted (l : list Z) : list Z := merge_sort Z.le l.

(** [a / b] on two integers: the exact quotient, which Python rounds to the
    nearest double. *)
Definition truediv (a b : Z) : M Q :=
  if b =? 0 then raise ZeroDivisionError else mret (inject_Z a / inject_Z b)%Q.

(** Lines 152-155: the loop over [sorted_counts]; [total_validators] is the
    running sum. *)
Fixpoint print_buckets (validator_counts : gmap Z Z) (sorted_counts : list Z)
    (total_validators : Z) : M Z :=
  match sorted_counts with
  | [] => mret total_validators
  | validator_count :: sorted_counts =>
      let operator_count := default 0 (validator_counts !! validator_count) in
      emit (Printed (LineOperators validator_count operator_count));;
      print_buckets validator_counts sorted_counts
                    (total_validators + operator_count * validator_count)
  end.

(** Lines 144-161: what follows the loop over the transactions. *)
Definition report (address_stats : gmap string OperatorStats) : M unit :=
  if decide (address_stats = ∅) then
    emit (Logged INFO (MsgText NO_TRANSACTIONS_FOUND));;
    emit (Printed (LineText NO_TRANSACTIONS_FOUND));;
    mret tt
  else
    let validator_counts := Counter (successful <$> values address_stats) in
    let sorted_counts := sorted (keys validator_counts) in
    total_validators ← print_buckets validator_counts sorted_counts 0;
    emit (Printed (LineTotal total_validators));;
    max_validators ← from_option mret (raise IndexError) (last sorted_counts);
    emit (Printed (LineMax max_validators));;
    ratio ← truediv max_validators total_validators;
    emit (Printed (LineExposure ratio));;
    emit (Logged INFO (MsgText "Validator summary generated successfully."));;
    mret tt.

(** [setup_web3]: [connected] is the answer of [web3.is_connected()]. *)
Definition setup_web3 (connected : bool) : M unit :=
  if connected then mret tt
  else emit (Logged ERROR MsgConnectFailed);; raise ConnectionError.

(** What the program uses of the web3 client: [web3.to_checksum_address],
    [None] when it rejects its argument. *)
Class Web3 := to_checksum_address : string → option string.

Section Aggregation.

Context `{Web3}.

Definition checksum (address : string) : M string :=
  from_option mret (raise ValueError) (to_checksum_address address).

(** Lines 133-142: the body of [for tx in transactions]. *)
Definition loop_body (vault_address : string) (tx : TransactionRecord)
    (address_stats : gmap string OperatorStats) : M (gmap string OperatorStats) :=
  let input_data := input_of tx in
  if is_aggregate_call input_data then
    sender ← getitem "from" (tx_from tx);
    from_address ← checksum sender;
    if negb (is_nodeset_transaction tx vault_address) then mret address_stats
    else
      hash ← getitem "hash" (tx_hash tx);
      emit (Logged INFO (MsgFound from_address hash));;
      let address_stats :=
        if decide (address_stats !! from_address = None)
        then <[from_address := {| successful := 0 |}]> address_stats
        else address_stats in
      is_error ← from_option mret (raise ValueError)
                   (PyStr.int (default "0" (tx_isError tx)));
      if is_error =? 0
      then mret (alter (λ stats, {| successful := successful stats + 1 |})
                       from_address address_stats)
      else mret address_stats
  else mret address_stats.

(** Lines 132-142: the loop over the fetched transactions. *)
Fixpoint aggregate_loop (vault_address : string) (transactions : list TransactionRecord)
    (address_stats : gmap string OperatorStats) : M (gmap string OperatorStats) :=
  match transactions with
  | [] => mret address_stats
  | tx :: transactions =>
      address_stats ← loop_body vault_address tx address_stats;
      aggregate_loop vault_address transactions address_stats
  end.

(** Lines 130-161: the function once the transactions are fetched. *)
Definition summarize_transactions (vault_address : string)
    (transactions : list TransactionRecord) : M unit :=
  address_stats ← aggregate_loop vault_address transactions ∅;
  report address_stats.

(** The whole function: [connected] and [script] are what the node and the
    indexing API answer during the run. *)
Definition summarize_validators_by_operator (connected : bool) (script : list reply)
    : M unit :=
  setup_web3 connected;;
  multicall_address ← checksum MULTICALL_ADDRESS;
  vault_address ← checksum NODESET_VAULT_ADDRESS;
  transactions ← fetch_multicall_transactions script;
  summarize_transactions vault_address transactions.

End Aggregation.

(** A stand-in for the checksum function on concrete runs: it accepts the
    42-character strings that start with [0x] and answers in lower case. *)
Definition sample_checksum (address : string) : option string :=
  if (PyStr.len address =? 42) && PyStr.startswith "0x" address
  then Some (PyStr.lower address) else None.

Definition sample_tx (sender payload flag : string) : TransactionRecord :=
  {| tx_from := Some sender; tx_input := Some payload;
     tx_hash := Some "0xfeed"; tx_isError := Some flag |}.

Definition VAULT_CALL : string :=
  "0x252dba42000000000000000000000000b266274f55e784689e97b7e363b0666d92e6305b".
Definition ADDRESS_A : string := "0x00000000000000000000000000000000000000aa".
Definition ADDRESS_B : string := "0x00000000000000000000000000000000000000bb".

(** A payload with another selector (an ERC-20 transfer) that holds the
    digits of the vault address all the same. *)
Definition TRANSFER_CALL : string :=
  "0xa9059cbb000000000000000000000000b266274f55e784689e97b7e363b0666d92e6305b".

(** Three successful calls of A and one of B; two failed calls. *)
Definition sample_transactions : list TransactionRecord :=
  [sample_tx ADDRESS_A VAULT_CALL "0"; sample_tx ADDRESS_B VAULT_CALL "0";
   sample_tx ADDRESS_A VAULT_CALL "0"; sample_tx ADDRESS_A VAULT_CALL "0"].

Definition failed_transactions : list TransactionRecord :=
  [sample_tx ADDRESS_A VAULT_CALL "1"; sample_tx ADDRESS_B VAULT_CALL "1"].

(** A failed call to the vault whose record carries no ['hash']; an aggregate
    call that does not reference the vault, and such a call whose record
    carries no ['from']. *)
Definition unhashed_tx : TransactionRecord :=
  {| tx_from := Some ADDRESS_A; tx_input := Some VAULT_CALL;
     tx_hash := None; tx_isError := Some "1" |}.

Definition OTHER_CALL : string :=
  "0x252dba42000000000000000000000000ca11bde05977b3631167028862be2a173976ca11".

Definition anonymous_tx : TransactionRecord :=
  {| tx_from := None; tx_input := Some OTHER_CALL;
     tx_hash := Some "0xfeed"; tx_isError := Some "0" |}.

(** A page of [n] records, answered with HTTP 200 and status ["1"]. *)
Definition sample_page (n : nat) : reply :=
  Response 200
    (Json {| status := Some "1"; message := Some "OK";
             result := Some (replicate n (sample_tx ADDRESS_A VAULT_CALL "0")) |}).

(** What the properties below ask of a record. *)

(** The sender is there and the checksum function accepts it, giving [a]. *)
Definition sender_is `{Web3}
    (a : string) (tx : TransactionRecord) : Prop :=
  tx_from tx ≫= to_checksum_address = Some a.

Global Instance sender_is_dec `{Web3} a tx : Decision (sender_is a tx).
Proof. unfold sender_is. apply _. Defined.

(** [int(tx.get('isError', '0'))] *)
Definition error_flag (tx : TransactionRecord) : option Z :=
  PyStr.int (default "0" (tx_isError tx)).

(** A record that reaches the counting lines 138-142: a batch aggregate call
    that references the vault. *)
Definition counted (vault_address : string) (tx : TransactionRecord) : bool :=
  is_aggregate_call (input_of tx) && is_nodeset_transaction tx vault_address.

(** A record the loop body reads without raising: an aggregate call has a
    sender that the checksum function accepts; a counted one has a hash and an
    error flag that [int] reads. *)
Definition readable `{Web3}
    (vault_address : string) (tx : TransactionRecord) : Prop :=
  (is_aggregate_call (input_of tx) = true →
     is_Some (tx_from tx ≫= to_checksum_address)) ∧
  (counted vault_address tx = true →
     is_Some (tx_hash tx) ∧ is_Some (error_flag tx)).

(** The counted records of a transaction list that operator [a] sent, and how
    many of a list of records succeeded (their error flag reads as zero). *)
Definition calls_of `{Web3}
    (vault_address a : string) (transactions : list TransactionRecord)
    : list TransactionRecord :=
  List.filter
    (λ tx, counted vault_address tx
           && bool_decide (sender_is a tx))
    transactions.

Definition succeeded (tx : TransactionRecord) : bool :=
  bool_decide (error_flag tx = Some 0).

Definition successes (calls : list TransactionRecord) : Z :=
  Z.of_nat (length (List.filter succeeded calls)).

(** An address that the checksum function produces. *)
Definition checksummed `{Web3}
    (a : string) : Prop :=
  ∃ address, to_checksum_address address = Some a.

Definition sum_Z (l : list Z) : Z := foldr Z.add 0 l.

(** The invariant of the operator map: every key is an address in checksum
    form and no count is negative. *)
Definition well_kept `{Web3}
    (address_stats : gmap string OperatorStats) : Prop :=
  ∀ a stats, address_stats !! a = Some stats →
             checksummed a ∧ 0 ≤ successful stats.

(** How often [v] occurs in a list of integers. *)
Definition occurrences (v : Z) (l : list Z) : Z :=
  Z.of_nat (length (List.filter (Z.eqb v) l)).

(** How many operators of the map stand at [count]. *)
Definition operators_with (address_stats : gmap string OperatorStats)
    (count : Z) : Z :=
  occurrences count (successful <$> values address_stats).

(** The line printed for the bucket [count] of a histogram. *)
Definition bucket_line (validator_counts : gmap Z Z) (count : Z) : line :=
  LineOperators count (default 0 (validator_counts !! count)).

(** The share of a bucket in the total: operators times validators. *)
Definition bucket_weight (validator_counts : gmap Z Z) (count : Z) : Z :=
  default 0 (validator_counts !! count) * count.

(** The histogram of an operator map, its total and what [report] does once
    total and maximum are known: the quotient, or the exception of a division
    by zero. *)
Definition histogram (address_stats : gmap string OperatorStats) : gmap Z Z :=
  Counter (successful <$> values address_stats).

Definition total_of (address_stats : gmap string OperatorStats) : Z :=
  sum_Z (bucket_weight (histogram address_stats)
           <$> sorted (keys (histogram address_stats))).

Definition exposure (max_validators total_validators : Z) : M unit :=
  if total_validators =? 0 then ([], Raised ZeroDivisionError)
  else ([Printed (LineExposure (inject_Z max_validators / inject_Z total_validators));
         Logged INFO (MsgText "Validator summary generated successfully.")],
        Returned tt).

(** A trace that holds a full summary: the total, the maximum and their
    quotient have been printed. *)
Definition prints_summary (t : list event) : Prop :=
  ∃ total_validators max_validators,
    Printed (LineTotal total_validators) ∈ t ∧
    Printed (LineMax max_validators) ∈ t ∧
    Printed (LineExposure (inject_Z max_validators / inject_Z total_validators)) ∈ t.

(** The pages asked for, in order. *)
Definition requested_pages (t : list event) : list Z :=
  omap (λ e, match e with HttpGet page => Some page | _ => None end) t.

(** The sleeps, in order. *)
Definition sleeps (t : list event) : list Z :=
  omap (λ e, match e with Sleep seconds => Some seconds | _ => None end) t.

(** A reply that is processed as a page of data: no HTTP error, a JSON body,
    and a status other than ["0"]. *)
Definition page_of (r : reply) : option (list TransactionRecord) :=
  match r with
  | Response status_code (Json data) =>
      if raises_for_status status_code then None
      else if decide (status data = Some "0") then None
      else Some (default [] (result data))
  | _ => None
  end.

(** A full page: a page of data with at least [PAGE_OFFSET] records. *)
Definition is_full_page (r : reply) : bool :=
  match page_of r with
  | Some transactions => PAGE_OFFSET <=? Z.of_nat (length transactions)
  | None => false
  end.

Definition records_of (r : reply) : list TransactionRecord :=
  default [] (page_of r).

(** A reply that cannot be retried on any attempt: no response at all, an
    HTTP error other than 429, or a body that is not JSON. *)
Definition fails (r : reply) : bool :=
  match r with
  | Unreachable => true
  | Response status_code b =>
      if raises_for_status status_code then negb (status_code =? 429)
      else match b with NotJson _ => true | Json _ => false end
  end.

(** What the fetcher does over full pages, from [page] on: one request and
    one log line each. *)
Fixpoint full_pages_trace (page : Z) (pages : list reply) : list event :=
  match pages with
  | [] => []
  | r :: pages =>
      HttpGet page
      :: Logged INFO (MsgFetched (Z.of_nat (length (records_of r))) page)
      :: full_pages_trace (page + 1) pages
  end.


(** The entry of an operator, an operator not seen yet standing at 0. *)
Definition entry_of (address_stats : gmap string OperatorStats) (a : string)
    : OperatorStats :=
  default {| successful := 0 |} (address_stats !! a).

(** ** The entry point: [main] *)

(** [main]: [api_key] and [eth_client_url] are what [os.getenv] finds,
    [None] when the variable is not set.  The URL only tells the client where
    to connect; what the node and the indexing API answer there is
    [connected] and [script]. *)
Definition main `{Web3} (api_key eth_client_url : option string)
    (connected : bool) (script : list reply) : M unit :=
  let eth_client_url := default "http://localhost:8545" eth_client_url in
  if negb (from_option PyStr.truthy false api_key) then
    emit (Logged ERROR (MsgText "Etherscan API key not provided."));;
    raise ValueError
  else summarize_validators_by_operator connected script.

(** What the further properties speak of. *)

(** The lines printed, in order. *)
Definition printed (t : list event) : list line :=
  omap (λ e, match e with Printed l => Some l | _ => None end) t.

(** An event of the network side: a request or a sleep. *)
Definition is_network (e : event) : bool :=
  match e with HttpGet _ | Sleep _ => true | _ => false end.

(** The exceptions that reading records of the documented shape and writing
    the report can end in. *)
Definition aggregation_error (e : exn) : Prop :=
  e = KeyError "from" ∨ e = KeyError "hash" ∨ e = ValueError
  ∨ e = ZeroDivisionError.

(** The counted records that succeeded. *)
Definition successful_calls (vault_address : string)
    (transactions : list TransactionRecord) : list TransactionRecord :=
  List.filter (λ tx, counted vault_address tx && succeeded tx) transactions.

(** * Properties *)

(** ** The effect monad *)

(** Runs a computation whose steps are all known. *)
Ltac run_M :=
  unfold mbind, M_bind, mret, M_ret, prepend, emit, raise, getitem; simpl.

Lemma bind_returned {A B} (t : list event) (a : A) (f : A → M B) :
  ((t, Returned a) ≫= f) = prepend t (f a).
Proof. reflexivity. Qed.

Lemma bind_emit {B} (e : event) (k : M B) :
  (emit e ;; k) = prepend [e] k.
Proof. reflexivity. Qed.

Lemma bind_mret {A B} (a : A) (f : A → M B) : (mret a ≫= f) = f a.
Proof. unfold mret, M_ret, mbind, M_bind, prepend. simpl. by destruct (f a). Qed.

Lemma prepend_nil {A} (m : M A) : prepend [] m = m.
Proof. by destruct m. Qed.

Lemma prepend_prepend {A} (t u : list event) (m : M A) :
  prepend t (prepend u m) = prepend (t ++ u) m.
Proof. unfold prepend. simpl. by rewrite app_assoc. Qed.

(** ** Strings *)

Lemma append_cons c s t : String c s +:+ t = String c (s +:+ t).
Proof. reflexivity. Qed.

Lemma lower_length s : String.length (PyStr.lower s) = String.length s.
Proof. induction s; simpl; congruence. Qed.

Lemma lower_app s1 s2 :
  PyStr.lower (s1 +:+ s2) = PyStr.lower s1 +:+ PyStr.lower s2.
Proof.
  induction s1 as [|c s1 IH]; [done|].
  rewrite append_cons. simpl. by rewrite IH.
Qed.

Lemma slice_to_length n s :
  String.length (PyStr.slice_to n s) = Nat.min n (String.length s).
Proof. revert s. induction n; intros [|c s]; simpl; auto. Qed.

Lemma startswith_spec p s :
  PyStr.startswith p s = true ↔ ∃ post, s = p +:+ post.
Proof.
  revert s. induction p as [|a p IH]; intros s; simpl.
  - split; eauto.
  - destruct s as [|b s].
    + split; [done | intros [post Hpost]; discriminate].
    + setoid_rewrite append_cons.
      destruct (Ascii.eqb_spec a b) as [->|Hne].
      * rewrite IH. split; intros [post Hpost]; exists post; congruence.
      * split; [done | intros [post Hpost]; congruence].
Qed.

Lemma contains_spec needle hay :
  PyStr.contains needle hay = true ↔ ∃ pre post, hay = pre +:+ needle +:+ post.
Proof.
  induction hay as [|c hay IH]; simpl.
  - rewrite orb_false_r, startswith_spec. split.
    + intros [post Hpost]. by exists "", post.
    + intros [[|c pre] [post Hpost]]; [by exists post | discriminate].
  - rewrite orb_true_iff, startswith_spec, IH. split.
    + intros [[post Hpost] | (pre & post & Hpost)].
      * by exists "", post.
      * exists (String c pre), post. rewrite append_cons. congruence.
    + intros ([|c' pre] & post & Hpost).
      * left. by exists post.
      * right. exists pre, post. rewrite append_cons in Hpost. congruence.
Qed.

Lemma bind_assoc {A B C} (m : M A) (f : A → M B) (g : B → M C) :
  ((m ≫= f) ≫= g) = (m ≫= λ a, f a ≫= g).
Proof.
  destruct m as [t [a|e|]]; try reflexivity.
  unfold mbind, M_bind. simpl.
  destruct (f a) as [u [b|e|]]; simpl; try reflexivity.
  unfold prepend. simpl. by rewrite app_assoc.
Qed.

Lemma bind_ext {A B} (m : M A) (f g : A → M B) :
  (∀ a, f a = g a) → (m ≫= f) = (m ≫= g).
Proof.
  intros Hfg. destruct m as [t [a|e|]]; try reflexivity.
  unfold mbind, M_bind. simpl. by rewrite Hfg.
Qed.

Example lower_samples :
  PyStr.lower "0x252DBA42" = "0x252dba42" ∧
  PyStr.slice_from 2 (PyStr.lower NODESET_VAULT_ADDRESS)
  = "b266274f55e784689e97b7e363b0666d92e6305b".
Proof. by split. Qed.

Example int_samples :
  PyStr.int "0" = Some 0 ∧ PyStr.int "1" = Some 1 ∧ PyStr.int " 00 " = Some 0 ∧
  PyStr.int "-0" = Some 0 ∧ PyStr.int "1_0" = Some 10 ∧ PyStr.int "" = None ∧
  PyStr.int "0x0" = None ∧ PyStr.int "_1" = None ∧ PyStr.int "1__0" = None ∧
  PyStr.int "1_" = None ∧ PyStr.int "+ 1" = None.
Proof. by repeat split. Qed.

Example int_separators :
  PyStr.int (String (ascii_of_N 31) "0") = None ∧
  PyStr.int (String (ascii_of_N 160) "0") = Some 0 ∧
  PyStr.int (String (ascii_of_N 9) "0") = Some 0.
Proof. by repeat split. Qed.

Example contains_samples :
  PyStr.contains "bc" "abcd" = true ∧ PyStr.contains "" "" = true ∧
  PyStr.contains "bd" "abcd" = false ∧ PyStr.slice_from 2 "0xAb" = "Ab" ∧
  PyStr.slice_to 10 "0x252dba42ffff" = "0x252dba42" ∧ PyStr.slice_to 10 "0x" = "0x".
Proof. by repeat split. Qed.

(** ** RelevanceFilter *)

Lemma slice_from_prefix digits :
  PyStr.slice_from 2 (PyStr.lower ("0x" +:+ digits)) = PyStr.lower digits.
Proof. reflexivity. Qed.

(** C5. [is_nodeset_transaction] answers [True] exactly when the payload, put
    in lower case, contains the vault address put in lower case and cut after
    its first two characters, somewhere: for an address written ["0x"] followed
    by its digits, exactly when the lowered payload contains the lowered
    digits.  What stands before and after the digits plays no part, so a
    payload that holds them by coincidence is relevant too. *)
Theorem is_nodeset_transaction_substring (tx : TransactionRecord) :
  (∀ vault_address,
     is_nodeset_transaction tx vault_address = true ↔
     ∃ pre post,
       PyStr.lower (input_of tx)
       = pre +:+ PyStr.slice_from 2 (PyStr.lower vault_address) +:+ post) ∧
  (∀ digits,
     is_nodeset_transaction tx ("0x" +:+ digits) = true ↔
     ∃ pre post,
       PyStr.lower (input_of tx) = pre +:+ PyStr.lower digits +:+ post) ∧
  (∀ digits pre post,
     input_of tx = pre +:+ digits +:+ post →
     is_nodeset_transaction tx ("0x" +:+ digits) = true).
Proof.
  assert (Hgen : ∀ vault_address,
     is_nodeset_transaction tx vault_address = true ↔
     ∃ pre post,
       PyStr.lower (input_of tx)
       = pre +:+ PyStr.slice_from 2 (PyStr.lower vault_address) +:+ post).
  { intros vault_address. unfold is_nodeset_transaction.
    rewrite <- contains_spec.
    by destruct (PyStr.contains _ _). }
  split; [exact Hgen|]. split.
  - intros digits. rewrite Hgen. by rewrite slice_from_prefix.
  - intros digits pre post Hin. apply Hgen. rewrite slice_from_prefix.
    exists (PyStr.lower pre), (PyStr.lower post).
    by rewrite Hin, !lower_app.
Qed.

(** ** OperatorAggregator: the loop over the transactions *)

Section AggregationProperties.

Context `{Web3}.

Lemma aggregate_loop_app vault_address l1 l2 address_stats :
  aggregate_loop vault_address (l1 ++ l2) address_stats
  = (aggregate_loop vault_address l1 address_stats
       ≫= aggregate_loop vault_address l2).
Proof.
  revert address_stats. induction l1 as [|tx l1 IH]; intros address_stats.
  - symmetry. apply bind_mret.
  - change (aggregate_loop vault_address ((tx :: l1) ++ l2) address_stats)
      with (loop_body vault_address tx address_stats
              ≫= aggregate_loop vault_address (l1 ++ l2)).
    change (aggregate_loop vault_address (tx :: l1) address_stats)
      with (loop_body vault_address tx address_stats
              ≫= aggregate_loop vault_address l1).
    rewrite bind_assoc. apply bind_ext, IH.
Qed.

(** A record that does not pass the test of line 134 leaves everything as it
    is; so does an aggregate call that does not reference the vault, once its
    sender is read. *)
Lemma loop_body_not_aggregate vault_address tx address_stats :
  is_aggregate_call (input_of tx) = false →
  loop_body vault_address tx address_stats = mret address_stats.
Proof. intros Hsel. unfold loop_body. by rewrite Hsel. Qed.

Lemma is_aggregate_call_spec input_data :
  is_aggregate_call input_data = true ↔
  PyStr.lower (PyStr.slice_to 10 input_data) = PyStr.lower AGGREGATE_SIGNATURE.
Proof.
  unfold is_aggregate_call. rewrite !andb_true_iff, String.eqb_eq. split.
  - by intros [_ ?].
  - intros Heq. split; [|done].
    assert (Hlen : String.length (PyStr.slice_to 10 input_data) = 10%nat).
    { rewrite <- lower_length, Heq. reflexivity. }
    rewrite slice_to_length in Hlen. split.
    + destruct input_data; [discriminate | done].
    + apply Z.leb_le. unfold PyStr.len. lia.
Qed.

(** C4. A record whose payload, cut to its first 10 characters and put in
    lower case, differs from the selector ["0x252dba42"] put in lower case
    goes through the loop body without a read, a log line or a change of the
    operator map, whatever the rest of its payload holds; taking it out of the
    transaction list changes nothing of the loop's result. *)
Theorem non_aggregate_record_excluded (vault_address : string)
    (tx : TransactionRecord) :
  PyStr.lower (PyStr.slice_to 10 (input_of tx)) ≠ PyStr.lower "0x252dba42" →
  (∀ address_stats,
     loop_body vault_address tx address_stats = ([], Returned address_stats)) ∧
  (∀ before after address_stats,
     aggregate_loop vault_address (before ++ tx :: after) address_stats
     = aggregate_loop vault_address (before ++ after) address_stats).
Proof.
  intros Hsel.
  assert (Hbody : ∀ address_stats,
            loop_body vault_address tx address_stats = mret address_stats).
  { intros address_stats. apply loop_body_not_aggregate.
    apply not_true_is_false. by rewrite is_aggregate_call_spec. }
  split; [exact Hbody|].
  intros before after address_stats. rewrite !aggregate_loop_app.
  apply bind_ext. intros mid.
  change (aggregate_loop vault_address (tx :: after) mid)
    with (loop_body vault_address tx mid ≫= aggregate_loop vault_address after).
  by rewrite Hbody, bind_mret.
Qed.

(** The loop body on a record that is counted: one log line, and the entry of
    the sender created if need be and incremented on success. *)
Lemma loop_body_counted vault_address tx address_stats a hash n :
  counted vault_address tx = true →
  sender_is a tx →
  tx_hash tx = Some hash →
  error_flag tx = Some n →
  loop_body vault_address tx address_stats
  = ([Logged INFO (MsgFound a hash)],
     Returned (<[a := {| successful := successful (entry_of address_stats a)
                                       + (if n =? 0 then 1 else 0) |}]>
                 address_stats)).
Proof.
  unfold counted, sender_is, error_flag. intros Hc Hfrom Hhash Hflag.
  apply andb_true_iff in Hc as [Hsel Hrel].
  destruct (tx_from tx) as [sender|] eqn:Hsender; [|discriminate].
  simpl in Hfrom.
  unfold loop_body, checksum, entry_of.
  rewrite Hsel, Hsender, Hrel, Hhash, Hflag.
  run_M. rewrite Hfrom. simpl.
  assert (Hmap : ∀ m1 m2 : gmap string OperatorStats, m1 = m2 →
            ([Logged INFO (MsgFound a hash)], Returned m1)
            = ([Logged INFO (MsgFound a hash)], Returned m2)) by by intros ?? ->.
  destruct (address_stats !! a) as [[k]|] eqn:Hk;
    (case_decide as Hd; [try discriminate | try done]);
    destruct (n =? 0); simpl; apply Hmap, map_eq; intros b;
    rewrite ?lookup_alter, ?lookup_insert;
    repeat case_decide; subst; try congruence; simpl; rewrite ?Hk; simpl;
    rewrite ?Z.add_0_r; done.
Qed.

(** C6, amended. Take a record that is counted (an aggregate call that
    references the vault), whose ['from'] the checksum function accepts,
    giving [a], which has a ['hash'], and whose error flag [int] reads as the
    number [n].  The loop body logs one line and changes the entry of [a]
    only, and that entry only as follows: when [n] is not zero, an operator
    seen before keeps its entry and a new operator gets an entry at 0; when
    [n] is zero, the successful-count of [a] goes up by one, from 0 for a new
    operator. *)
Theorem failed_call_leaves_counts (vault_address : string)
    (tx : TransactionRecord) (address_stats : gmap string OperatorStats)
    (a hash : string) (n : Z) :
  counted vault_address tx = true →
  sender_is a tx →
  tx_hash tx = Some hash →
  error_flag tx = Some n →
  ∃ address_stats',
    loop_body vault_address tx address_stats
    = ([Logged INFO (MsgFound a hash)], Returned address_stats') ∧
    (∀ b, b ≠ a → address_stats' !! b = address_stats !! b) ∧
    (n ≠ 0 →
       address_stats' !! a
       = Some (default {| successful := 0 |} (address_stats !! a))) ∧
    (n = 0 →
       address_stats' !! a
       = Some {| successful :=
                   successful (default {| successful := 0 |} (address_stats !! a))
                   + 1 |}).
Proof.
  intros Hc Hfrom Hhash Hflag. eexists. split.
  { by apply loop_body_counted. }
  split; [|split].
  - intros b Hb. by rewrite lookup_insert_ne.
  - intros Hn. rewrite lookup_insert_eq. unfold entry_of.
    destruct (Z.eqb_spec n 0) as [|_]; [done|].
    rewrite Z.add_0_r. by destruct (default _ _).
  - intros ->. by rewrite lookup_insert_eq.
Qed.


(** A readable record that is not counted leaves the map as it is, silently. *)
Lemma loop_body_skipped vault_address tx address_stats :
  readable vault_address tx →
  counted vault_address tx = false →
  loop_body vault_address tx address_stats = ([], Returned address_stats).
Proof.
  intros [Hsender _] Hc. unfold counted in Hc.
  destruct (is_aggregate_call (input_of tx)) eqn:Hsel.
  - simpl in Hc. destruct (Hsender eq_refl) as [a Ha].
    destruct (tx_from tx) as [sender|] eqn:Hfrom; [|discriminate].
    simpl in Ha. unfold loop_body, checksum.
    rewrite Hsel, Hfrom, Hc. run_M. by rewrite Ha.
  - by apply loop_body_not_aggregate.
Qed.

Lemma successes_cons tx calls :
  successes (tx :: calls)
  = (if succeeded tx then 1 else 0) + successes calls.
Proof.
  unfold successes. simpl. destruct (succeeded tx); simpl; lia.
Qed.

(** The loop, in closed form: over readable records it ends normally, and
    each operator's entry is its entry at the start plus the number of its
    counted records that succeeded; an operator without counted record keeps
    what it had. *)
Lemma aggregate_loop_spec vault_address transactions :
  Forall (readable vault_address) transactions →
  ∀ address_stats, ∃ t final,
    aggregate_loop vault_address transactions address_stats = (t, Returned final) ∧
    ∀ a, final !! a =
         match calls_of vault_address a transactions with
         | [] => address_stats !! a
         | calls =>
             Some {| successful := successful (entry_of address_stats a)
                                   + successes calls |}
         end.
Proof.
  induction 1 as [|tx transactions Htx _ IH]; intros address_stats.
  - by exists [], address_stats.
  - destruct (counted vault_address tx) eqn:Hc.
    + pose proof Htx as [_ Hread]. destruct (Hread Hc) as [[hash Hhash] [n Hn]].
      assert (Hsel : is_aggregate_call (input_of tx) = true).
      { unfold counted in Hc. by apply andb_true_iff in Hc as [? _]. }
      destruct Htx as [Hsender _]. destruct (Hsender Hsel) as [a' Ha'].
      destruct (IH (<[a' := {| successful := successful (entry_of address_stats a')
                                            + (if n =? 0 then 1 else 0) |}]>
                      address_stats)) as (t & final & Hrun & Hfinal).
      exists (Logged INFO (MsgFound a' hash) :: t), final. split.
      { simpl. rewrite (loop_body_counted _ _ _ a' hash n) by done.
        rewrite bind_returned, Hrun. reflexivity. }
      intros a. rewrite Hfinal. unfold calls_of. simpl.
      rewrite Hc. simpl. unfold entry_of.
      assert (Hsucc : succeeded tx = (n =? 0)).
      { unfold succeeded. rewrite Hn.
        destruct (Z.eqb_spec n 0) as [->|Hne].
        - by rewrite bool_decide_eq_true_2.
        - rewrite bool_decide_eq_false_2; [done | congruence]. }
      destruct (decide (a' = a)) as [<-|Hne].
      * rewrite bool_decide_eq_true_2 by done.
        rewrite lookup_insert_eq. simpl.
        destruct (List.filter _ transactions) as [|c calls] eqn:Hcalls.
        -- rewrite successes_cons, Hsucc. unfold successes. simpl.
           by rewrite Z.add_0_r.
        -- rewrite (successes_cons tx), Hsucc. by rewrite Z.add_assoc.
      * rewrite bool_decide_eq_false_2; last first.
        { unfold sender_is. rewrite Ha'. congruence. }
        by rewrite lookup_insert_ne.
    + destruct (IH address_stats) as (t & final & Hrun & Hfinal).
      exists t, final. split.
      { simpl. rewrite loop_body_skipped by done. by rewrite bind_returned, Hrun. }
      intros a. rewrite Hfinal. unfold calls_of. simpl.
      by rewrite Hc.
Qed.

End AggregationProperties.

(** ** OperatorAggregator: the histogram and the report *)

Lemma occurrences_cons v w l :
  occurrences v (w :: l) = (if v =? w then 1 else 0) + occurrences v l.
Proof. unfold occurrences. simpl. destruct (v =? w); simpl; lia. Qed.

Lemma occurrences_nonneg v l : 0 ≤ occurrences v l.
Proof. unfold occurrences. lia. Qed.

Lemma occurrences_pos v l : 0 < occurrences v l ↔ v ∈ l.
Proof.
  induction l as [|w l IH].
  - split; [unfold occurrences; simpl; lia | by intros ?%elem_of_nil].
  - rewrite occurrences_cons, elem_of_cons.
    pose proof (occurrences_nonneg v l).
    destruct (Z.eqb_spec v w) as [->|Hne].
    + split; [by left | lia].
    + rewrite Z.add_0_l, IH. split; [by right | by intros [?|?]].
Qed.

(** The counter after a list of increments, from any starting counter. *)
Lemma Counter_foldl l (c : gmap Z Z) v :
  foldl (λ c v, <[v := default 0 (c !! v) + 1]> c) c l !! v
  = if decide (occurrences v l = 0) then c !! v
    else Some (default 0 (c !! v) + occurrences v l).
Proof.
  revert c. induction l as [|w l IH]; intros c.
  - reflexivity.
  - simpl. rewrite IH, occurrences_cons.
    pose proof (occurrences_nonneg v l).
    rewrite lookup_insert.
    destruct (Z.eqb_spec v w) as [->|Hne].
    + rewrite !(decide_True (P := w = w)) by done. simpl.
      rewrite (decide_False (P := 1 + _ = 0)) by lia.
      case_decide as Hz; [rewrite Hz|]; f_equal; lia.
    + rewrite !(decide_False (P := w = v)) by done. by rewrite Z.add_0_l.
Qed.

Lemma Counter_lookup l v :
  Counter l !! v
  = if decide (occurrences v l = 0) then None else Some (occurrences v l).
Proof. unfold Counter. rewrite Counter_foldl, lookup_empty. simpl. done. Qed.

Lemma Counter_lookup_Some l v n :
  Counter l !! v = Some n ↔ n = occurrences v l ∧ 0 < n.
Proof.
  rewrite Counter_lookup. pose proof (occurrences_nonneg v l).
  case_decide; split.
  - done.
  - intros [-> ?]. lia.
  - intros [= <-]. split; [done | lia].
  - by intros [-> _].
Qed.

Lemma elem_of_keys (h : gmap Z Z) v : v ∈ keys h ↔ is_Some (h !! v).
Proof.
  unfold keys. rewrite list_elem_of_fmap. split.
  - intros [[k n] [-> Hin%elem_of_map_to_list]]. by exists n.
  - intros [n Hn]. exists (v, n). by rewrite elem_of_map_to_list.
Qed.

Lemma elem_of_values (address_stats : gmap string OperatorStats) stats :
  stats ∈ values address_stats ↔ ∃ a, address_stats !! a = Some stats.
Proof.
  unfold values. rewrite list_elem_of_fmap. split.
  - intros [[a s] [-> Hin%elem_of_map_to_list]]. by exists a.
  - intros [a Ha]. exists (a, stats). by rewrite elem_of_map_to_list.
Qed.

Lemma sorted_elem_of l v : v ∈ sorted l ↔ v ∈ l.
Proof. unfold sorted. by rewrite merge_sort_Permutation. Qed.

Lemma sorted_StronglySorted l : StronglySorted Z.le (sorted l).
Proof. apply StronglySorted_merge_sort; apply _. Qed.

Lemma sorted_NoDup l : NoDup l → NoDup (sorted l).
Proof. unfold sorted. by rewrite merge_sort_Permutation. Qed.

(** The last element of an ascending list is its largest. *)
Lemma last_StronglySorted l m :
  StronglySorted Z.le l → last l = Some m → m ∈ l ∧ ∀ v, v ∈ l → v ≤ m.
Proof.
  induction 1 as [|w l Hl IH Hw]; [done|].
  destruct l as [|w' l].
  - intros [= <-]. split; [by left|]. by intros v ->%list_elem_of_singleton.
  - intros Hlast. destruct (IH Hlast) as [Hin Hmax]. split; [by right|].
    intros v [->|Hv]%elem_of_cons; [|by apply Hmax].
    rewrite Forall_forall in Hw. by apply Hw.
Qed.

(** The loop over the sorted counts prints one line per bucket and adds the
    weights of the buckets. *)
Lemma print_buckets_spec validator_counts sorted_counts total_validators :
  print_buckets validator_counts sorted_counts total_validators
  = (Printed <$> (bucket_line validator_counts <$> sorted_counts),
     Returned (total_validators
               + sum_Z (bucket_weight validator_counts <$> sorted_counts))).
Proof.
  revert total_validators.
  induction sorted_counts as [|c l IH]; intros total_validators.
  - simpl. by rewrite Z.add_0_r.
  - cbn [print_buckets]. rewrite bind_emit, IH.
    unfold prepend, bucket_weight. simpl. by rewrite Z.add_assoc.
Qed.

Lemma histogram_lookup address_stats count n :
  histogram address_stats !! count = Some n
  ↔ n = operators_with address_stats count ∧ 0 < n.
Proof. apply Counter_lookup_Some. Qed.

Lemma operators_with_pos (address_stats : gmap string OperatorStats) count :
  0 < operators_with address_stats count
  ↔ ∃ a stats, address_stats !! a = Some stats ∧ successful stats = count.
Proof.
  unfold operators_with. rewrite occurrences_pos, list_elem_of_fmap.
  setoid_rewrite elem_of_values. split.
  - intros (stats & -> & a & Ha). by exists a, stats.
  - intros (a & stats & Ha & <-). exists stats. split; [done | by exists a].
Qed.

Lemma elem_of_sorted_counts (address_stats : gmap string OperatorStats) count :
  count ∈ sorted (keys (histogram address_stats))
  ↔ ∃ a stats, address_stats !! a = Some stats ∧ successful stats = count.
Proof.
  rewrite sorted_elem_of, elem_of_keys, <- operators_with_pos. split.
  - by intros [n [-> ?]%histogram_lookup].
  - intros Hpos. eexists. by apply histogram_lookup.
Qed.

(** The report of a map that is not empty: the bucket lines in ascending
    order, the total, the largest count, then the quotient or the division by
    zero. *)
Lemma report_nonempty (address_stats : gmap string OperatorStats) :
  address_stats ≠ ∅ →
  ∃ max_validators,
    last (sorted (keys (histogram address_stats))) = Some max_validators ∧
    report address_stats
    = prepend
        ((Printed <$> (bucket_line (histogram address_stats)
                         <$> sorted (keys (histogram address_stats))))
         ++ [Printed (LineTotal (total_of address_stats));
             Printed (LineMax max_validators)])
        (exposure max_validators (total_of address_stats)).
Proof.
  intros Hne.
  destruct (last (sorted (keys (histogram address_stats)))) as [mx|] eqn:Hlast.
  - exists mx. split; [done|]. unfold report. rewrite decide_False by done.
    fold (histogram address_stats). cbv zeta.
    rewrite print_buckets_spec, bind_returned, Z.add_0_l.
    fold (total_of address_stats). rewrite Hlast.
    rewrite <- prepend_prepend. f_equal.
    rewrite bind_emit. simpl from_option. rewrite bind_mret, bind_emit.
    rewrite prepend_prepend. simpl app.
    unfold truediv, exposure. by destruct (total_of address_stats =? 0).
  - exfalso. apply last_None in Hlast.
    destruct (map_to_list address_stats) as [|[a stats] l] eqn:Hl.
    { by apply map_to_list_empty_iff in Hl. }
    assert (Hin : successful stats ∈ sorted (keys (histogram address_stats))).
    { apply elem_of_sorted_counts. exists a, stats. split; [|done].
      apply elem_of_map_to_list. rewrite Hl. by left. }
    rewrite Hlast in Hin. by apply elem_of_nil in Hin.
Qed.

Lemma sum_Z_cons x l : sum_Z (x :: l) = x + sum_Z l.
Proof. reflexivity. Qed.

(** Counting by buckets: a weighted sum over distinct buckets that cover a
    list is the sum of the weights of the elements of the list. *)
Lemma sum_Z_indicator (w : Z → Z) ks v :
  NoDup ks →
  sum_Z ((λ c, (if c =? v then 1 else 0) * w c) <$> ks)
  = if decide (v ∈ ks) then w v else 0.
Proof.
  induction 1 as [|c ks Hc Hks IH]; [done|].
  rewrite fmap_cons, sum_Z_cons, IH. destruct (Z.eqb_spec c v) as [->|Hne].
  - rewrite (decide_True (P := v ∈ v :: ks)) by by left.
    rewrite (decide_False (P := v ∈ ks)) by done. lia.
  - destruct (decide (v ∈ ks)) as [Hin|Hin].
    + rewrite (decide_True (P := v ∈ c :: ks)) by by right. lia.
    + rewrite (decide_False (P := v ∈ c :: ks)); [lia|].
      by intros [->|?]%elem_of_cons.
Qed.

Lemma sum_Z_occurrences_cons (w : Z → Z) ks v l :
  sum_Z ((λ c, occurrences c (v :: l) * w c) <$> ks)
  = sum_Z ((λ c, (if c =? v then 1 else 0) * w c) <$> ks)
    + sum_Z ((λ c, occurrences c l * w c) <$> ks).
Proof.
  induction ks as [|c ks IH]; [done|].
  rewrite !fmap_cons, !sum_Z_cons, IH, occurrences_cons. lia.
Qed.

Lemma sum_Z_by_buckets (w : Z → Z) ks l :
  NoDup ks → (∀ v, v ∈ l → v ∈ ks) →
  sum_Z ((λ c, occurrences c l * w c) <$> ks) = sum_Z (w <$> l).
Proof.
  intros Hks. induction l as [|v l IH]; intros Hcover.
  - clear. induction ks as [|c ks IH]; [done|].
    by rewrite fmap_cons, sum_Z_cons, IH.
  - rewrite sum_Z_occurrences_cons, sum_Z_indicator by done.
    rewrite decide_True by (apply Hcover; by left).
    rewrite IH; [done|]. intros c Hc. apply Hcover. by right.
Qed.

Lemma sum_Z_ones {A} (l : list A) : sum_Z ((λ _, 1) <$> l) = Z.of_nat (length l).
Proof.
  induction l as [|x l IH]; [done|].
  rewrite fmap_cons, sum_Z_cons, IH. simpl length. lia.
Qed.

Lemma occurrences_Permutation v l1 l2 :
  l1 ≡ₚ l2 → occurrences v l1 = occurrences v l2.
Proof.
  induction 1 as [|x l1 l2 _ IH|x y l|l1 l2 l3 _ IH1 _ IH2].
  - done.
  - by rewrite !occurrences_cons, IH.
  - rewrite !occurrences_cons. lia.
  - by rewrite IH1.
Qed.

Lemma operators_with_filter address_stats count :
  operators_with address_stats count
  = Z.of_nat (length (List.filter (λ stats, successful stats =? count)
                                  (values address_stats))).
Proof.
  unfold operators_with. generalize (values address_stats). intros l.
  induction l as [|stats l IH]; [done|].
  rewrite fmap_cons, occurrences_cons, IH. simpl.
  rewrite (Z.eqb_sym count (successful stats)).
  destruct (successful stats =? count); simpl length; lia.
Qed.

Lemma histogram_default address_stats count :
  default 0 (histogram address_stats !! count) = operators_with address_stats count.
Proof.
  unfold histogram, operators_with. rewrite Counter_lookup. by case_decide.
Qed.

Lemma histogram_covers (address_stats : gmap string OperatorStats) v :
  v ∈ successful <$> values address_stats → v ∈ keys (histogram address_stats).
Proof.
  intros Hv%occurrences_pos. apply elem_of_keys. eexists.
  apply histogram_lookup. split; [reflexivity | done].
Qed.

(** The total of the report, bucket by bucket and operator by operator. *)
Lemma total_of_buckets address_stats :
  total_of address_stats
  = sum_Z ((λ count, operators_with address_stats count * count)
             <$> sorted (keys (histogram address_stats))).
Proof.
  unfold total_of. f_equal. apply list_fmap_ext. intros _ count _.
  unfold bucket_weight. by rewrite histogram_default.
Qed.

Lemma total_of_operators address_stats :
  total_of address_stats = sum_Z (successful <$> values address_stats).
Proof.
  rewrite total_of_buckets. unfold operators_with.
  rewrite (sum_Z_by_buckets (λ v, v)).
  - by rewrite list_fmap_id.
  - apply sorted_NoDup, NoDup_fst_map_to_list.
  - intros v Hv. apply sorted_elem_of. by apply histogram_covers.
Qed.

(** The values of the histogram add up to the number of operators. *)
Lemma histogram_values_sum (address_stats : gmap string OperatorStats) :
  sum_Z ((map_to_list (histogram address_stats)).*2)
  = Z.of_nat (size address_stats).
Proof.
  assert (Hvals : (map_to_list (histogram address_stats)).*2
                  = (λ count, operators_with address_stats count * 1)
                      <$> keys (histogram address_stats)).
  { unfold keys. rewrite <- list_fmap_compose. apply list_fmap_ext.
    intros i [count n] Hi. simpl.
    assert (Hn : histogram address_stats !! count = Some n).
    { apply elem_of_map_to_list. by eapply list_elem_of_lookup_2. }
    apply histogram_lookup in Hn as [-> _]. lia. }
  rewrite Hvals. unfold operators_with.
  rewrite (sum_Z_by_buckets (λ _, 1)).
  - rewrite sum_Z_ones, length_fmap. unfold values.
    by rewrite length_fmap, length_map_to_list.
  - apply NoDup_fst_map_to_list.
  - apply histogram_covers.
Qed.

Lemma NoDup_all_equal (l : list Z) v :
  NoDup l → (∀ x, x ∈ l ↔ x = v) → l = [v].
Proof.
  intros Hnd Hall. destruct l as [|x [|y l]].
  - assert (Hv : v ∈ @nil Z) by by apply Hall. by apply elem_of_nil in Hv.
  - f_equal. apply Hall. by left.
  - assert (x = v) as -> by (apply Hall; by left).
    assert (y = v) as -> by (apply Hall; right; by left).
    apply NoDup_cons in Hnd as [Hnotin _]. destruct Hnotin. by left.
Qed.

Lemma occurrences_all v l :
  (∀ x, x ∈ l → x = v) → occurrences v l = Z.of_nat (length l).
Proof.
  induction l as [|x l IH]; intros Hall; [done|].
  rewrite occurrences_cons, IH by (intros y Hy; apply Hall; by right).
  rewrite (Hall x) by by left. rewrite Z.eqb_refl. simpl length. lia.
Qed.

(** The report of a map that is not empty and whose counts are all 0: one
    bucket, a total of 0, and the division by zero. *)
Lemma report_all_zero (address_stats : gmap string OperatorStats) :
  address_stats ≠ ∅ →
  (∀ a stats, address_stats !! a = Some stats → successful stats = 0) →
  total_of address_stats = 0 ∧
  report address_stats
  = ([Printed (LineOperators 0 (Z.of_nat (size address_stats)));
      Printed (LineTotal 0); Printed (LineMax 0)],
     Raised ZeroDivisionError).
Proof.
  intros Hne Hzero.
  assert (Hsorted : sorted (keys (histogram address_stats)) = [0]).
  { apply NoDup_all_equal.
    - apply sorted_NoDup, NoDup_fst_map_to_list.
    - intros count. rewrite elem_of_sorted_counts. split.
      + intros (a & stats & Ha & <-). by eapply Hzero.
      + intros ->. apply map_choose in Hne as (a & stats & Ha).
        exists a, stats. split; [done | by eapply Hzero]. }
  assert (Htotal : total_of address_stats = 0).
  { unfold total_of. rewrite Hsorted. unfold bucket_weight. simpl. lia. }
  split; [done|].
  destruct (report_nonempty address_stats Hne) as (mx & Hlast & ->).
  rewrite Hsorted in Hlast. injection Hlast as <-.
  rewrite Hsorted, Htotal. unfold bucket_line. rewrite !fmap_cons.
  rewrite histogram_default. unfold operators_with.
  rewrite occurrences_all.
  - unfold values. by rewrite !length_fmap, length_map_to_list.
  - intros v (stats & -> & [a Ha]%elem_of_values)%list_elem_of_fmap.
    by eapply Hzero.
Qed.

Lemma bind_returned_inv {A B} (m : M A) (f : A → M B) t b :
  (m ≫= f) = (t, Returned b) →
  ∃ t1 a t2, m = (t1, Returned a) ∧ f a = (t2, Returned b) ∧ t = t1 ++ t2.
Proof.
  destruct m as [t1 [a|e|]]; [|done..].
  rewrite bind_returned. destruct (f a) as [t2 o] eqn:Hf.
  unfold prepend. simpl. intros [= <- ->]. by exists t1, a, t2.
Qed.

(** ** OperatorAggregator: invariants and the summary *)

Section SummaryProperties.

Context `{Web3}.

(** Whenever the loop body returns, it has left the map alone or written the
    entry of an address that the checksum function produced, with its old
    count or that count plus one. *)
Lemma loop_body_returned vault_address tx address_stats t address_stats' :
  loop_body vault_address tx address_stats = (t, Returned address_stats') →
  address_stats' = address_stats ∨
  ∃ a d, checksummed a ∧ (d = 0 ∨ d = 1) ∧
         address_stats'
         = <[a := {| successful := successful (entry_of address_stats a) + d |}]>
             address_stats.
Proof.
  destruct (is_aggregate_call (input_of tx)) eqn:Hsel; last first.
  { rewrite loop_body_not_aggregate by done. intros [= _ ->]. by left. }
  destruct (tx_from tx) as [sender|] eqn:Hsender; last first.
  { unfold loop_body. by rewrite Hsel, Hsender. }
  destruct (to_checksum_address sender) as [a|] eqn:Ha; last first.
  { unfold loop_body, checksum. rewrite Hsel, Hsender. run_M. by rewrite Ha. }
  destruct (is_nodeset_transaction tx vault_address) eqn:Hrel; last first.
  { unfold loop_body, checksum. rewrite Hsel, Hsender, Hrel. run_M.
    rewrite Ha. simpl. intros [= _ ->]. by left. }
  destruct (tx_hash tx) as [hash|] eqn:Hhash; last first.
  { unfold loop_body, checksum. rewrite Hsel, Hsender, Hrel, Hhash. run_M.
    by rewrite Ha. }
  destruct (error_flag tx) as [n|] eqn:Hn; last first.
  { unfold error_flag in Hn. unfold loop_body, checksum.
    rewrite Hsel, Hsender, Hrel, Hhash, Hn. run_M. by rewrite Ha. }
  rewrite (loop_body_counted _ _ _ a hash n); try done.
  - intros [= _ <-]. right. exists a, (if n =? 0 then 1 else 0).
    split; [by exists sender|]. split; [|done]. destruct (n =? 0); auto.
  - unfold counted. by rewrite Hsel, Hrel.
  - unfold sender_is. by rewrite Hsender.
Qed.

Lemma loop_body_kept vault_address tx address_stats t address_stats' :
  well_kept address_stats →
  loop_body vault_address tx address_stats = (t, Returned address_stats') →
  well_kept address_stats'.
Proof.
  intros Hinv [->|(a & d & Ha & Hd & ->)]%loop_body_returned; [done|].
  intros b stats. rewrite lookup_insert. case_decide as Hab.
  - subst b. intros [= <-]. split; [done|]. simpl. unfold entry_of.
    destruct (address_stats !! a) as [old|] eqn:Hold; simpl.
    + apply Hinv in Hold as [_ ?]. lia.
    + lia.
  - apply Hinv.
Qed.

Lemma aggregate_loop_kept vault_address transactions address_stats t final :
  well_kept address_stats →
  aggregate_loop vault_address transactions address_stats = (t, Returned final) →
  well_kept final.
Proof.
  revert address_stats t.
  induction transactions as [|tx transactions IH]; intros address_stats t Hinv.
  - by intros [= _ <-].
  - cbn [aggregate_loop].
    intros (t1 & mid & t2 & Hbody & Hrest & _)%bind_returned_inv.
    eapply IH; [|done]. by eapply loop_body_kept.
Qed.

(** C9. Whenever the loop over a transaction list ends normally, it had ended
    normally after each prefix of the list, and after the prefix as at the end
    every key of the operator map is an address the checksum function
    produced and every count is at least 0.  In the histogram of the final map
    every operator's count is a key, the value under a key is the number of
    operators that stand at that count, and the values add up to the number
    of operators. *)
Theorem operator_stats_invariants (vault_address : string)
    (before after : list TransactionRecord) (t : list event)
    (final : gmap string OperatorStats) :
  aggregate_loop vault_address (before ++ after) ∅ = (t, Returned final) →
  (∃ t' mid, aggregate_loop vault_address before ∅ = (t', Returned mid) ∧
             ∀ a stats, mid !! a = Some stats →
                        checksummed a ∧ 0 ≤ successful stats) ∧
  (∀ a stats, final !! a = Some stats →
     checksummed a ∧ 0 ≤ successful stats ∧
     ∃ n, histogram final !! successful stats = Some n ∧ 0 < n) ∧
  (∀ count n, histogram final !! count = Some n →
     n = Z.of_nat (length (List.filter (λ stats, successful stats =? count)
                                       (values final)))) ∧
  sum_Z ((map_to_list (histogram final)).*2) = Z.of_nat (size final).
Proof.
  intros Hrun.
  assert (Hempty : well_kept ∅) by (intros a stats; by rewrite lookup_empty).
  split; [|split; [|split]].
  - rewrite aggregate_loop_app in Hrun.
    apply bind_returned_inv in Hrun as (t' & mid & _ & Hbefore & _ & _).
    exists t', mid. split; [done|]. by eapply aggregate_loop_kept.
  - intros a stats Ha.
    destruct (aggregate_loop_kept _ _ _ _ _ Hempty Hrun a stats Ha) as [Hck Hpos].
    split; [done|]. split; [done|].
    exists (operators_with final (successful stats)).
    assert (0 < operators_with final (successful stats)).
    { apply operators_with_pos. by exists a, stats. }
    split; [|done]. by apply histogram_lookup.
  - intros count n [-> _]%histogram_lookup. apply operators_with_filter.
  - apply histogram_values_sum.
Qed.

(** The loop over readable records none of which is counted does nothing. *)
Lemma aggregate_loop_none_counted vault_address transactions address_stats :
  Forall (readable vault_address) transactions →
  Forall (λ tx, counted vault_address tx = false) transactions →
  aggregate_loop vault_address transactions address_stats
  = ([], Returned address_stats).
Proof.
  induction 1 as [|tx transactions Htx _ IH]; [done|].
  intros [Hc Hrest]%Forall_cons. cbn [aggregate_loop].
  rewrite loop_body_skipped, bind_returned, prepend_nil by done. by apply IH.
Qed.

(** C7, amended. When no record of the fetched list is both a batch aggregate
    call and relevant to the vault, and every batch aggregate call of the list
    has a ['from'] that the checksum function accepts, the function logs and
    prints ["No NodeSet-related Aggregate transactions found."] and returns:
    no other line is printed, no quotient is computed, no exception is
    raised. *)
Theorem no_counted_record_reports_empty (vault_address : string)
    (transactions : list TransactionRecord) :
  Forall (λ tx, is_aggregate_call (input_of tx) = true →
                is_Some (tx_from tx ≫= to_checksum_address))
         transactions →
  Forall (λ tx, is_aggregate_call (input_of tx)
                && is_nodeset_transaction tx vault_address = false)
         transactions →
  summarize_transactions vault_address transactions
  = ([Logged INFO (MsgText "No NodeSet-related Aggregate transactions found.");
      Printed (LineText "No NodeSet-related Aggregate transactions found.")],
     Returned tt).
Proof.
  intros Hsender Hnone. unfold summarize_transactions.
  rewrite aggregate_loop_none_counted; [by rewrite bind_returned, prepend_nil| |done].
  rewrite Forall_forall in Hsender, Hnone. apply Forall_forall. intros tx Htx.
  split; [by apply Hsender|]. unfold counted. by rewrite (Hnone tx Htx).
Qed.

Lemma elem_of_calls_of vault_address a transactions tx :
  tx ∈ calls_of vault_address a transactions
  ↔ tx ∈ transactions ∧ counted vault_address tx = true ∧ sender_is a tx.
Proof.
  unfold calls_of.
  rewrite !list_elem_of_In, filter_In, andb_true_iff, bool_decide_eq_true.
  tauto.
Qed.

Lemma successes_none calls :
  (∀ tx, tx ∈ calls → succeeded tx = false) → successes calls = 0.
Proof.
  induction calls as [|tx calls IH]; intros Hall; [done|].
  rewrite successes_cons, (Hall tx), IH; [done| |by left].
  intros tx' Htx'. apply Hall. by right.
Qed.

Lemma successes_all calls :
  (∀ tx, tx ∈ calls → succeeded tx = true) →
  successes calls = Z.of_nat (length calls).
Proof.
  induction calls as [|tx calls IH]; intros Hall; [done|].
  rewrite successes_cons, (Hall tx), IH; [simpl length; lia| |by left].
  intros tx' Htx'. apply Hall. by right.
Qed.

(** From the empty map, over readable records: the operators are the senders
    of the counted records, each with the number of its counted records that
    succeeded. *)
Lemma aggregate_loop_from_empty vault_address transactions :
  Forall (readable vault_address) transactions →
  ∃ t final,
    aggregate_loop vault_address transactions ∅ = (t, Returned final) ∧
    ∀ a, final !! a =
         match calls_of vault_address a transactions with
         | [] => None
         | calls => Some {| successful := successes calls |}
         end.
Proof.
  intros Hread.
  destruct (aggregate_loop_spec vault_address transactions
              Hread ∅) as (t & final & Hrun & Hfinal).
  exists t, final. split; [done|]. intros a. rewrite Hfinal.
  unfold entry_of. rewrite !lookup_empty. simpl.
  by destruct (calls_of _ _ _).
Qed.

(** C10. Let a fetched list of readable records hold at least one record that
    is both an aggregate call and relevant to the vault, and let the error
    flag of every such record read as a number other than zero.  Then the loop
    ends with a map that is not empty, so the test [if not address_stats]
    does not fire; every operator stands at 0; the total is 0; and after the
    line of the single bucket 0, the total and the maximum, the function
    raises [ZeroDivisionError] at the quotient. *)
Theorem all_failed_calls_divide_by_zero (vault_address : string)
    (transactions : list TransactionRecord) :
  Forall (readable vault_address) transactions →
  (∃ tx, tx ∈ transactions ∧ counted vault_address tx = true) →
  (∀ tx, tx ∈ transactions → counted vault_address tx = true →
         ∃ n, error_flag tx = Some n ∧ n ≠ 0) →
  ∃ t final,
    aggregate_loop vault_address transactions ∅ = (t, Returned final) ∧
    final ≠ ∅ ∧
    (∀ a stats, final !! a = Some stats → successful stats = 0) ∧
    total_of final = 0 ∧
    summarize_transactions vault_address transactions
    = (t ++ [Printed (LineOperators 0 (Z.of_nat (size final)));
             Printed (LineTotal 0); Printed (LineMax 0)],
       Raised ZeroDivisionError).
Proof.
  intros Hread (tx & Htx & Hc) Hfail.
  destruct (aggregate_loop_from_empty vault_address transactions Hread)
    as (t & final & Hrun & Hfinal).
  assert (Hzero : ∀ a stats, final !! a = Some stats → successful stats = 0).
  { intros a stats. rewrite Hfinal.
    destruct (calls_of vault_address a transactions) as [|c calls] eqn:Hcalls;
      [done|].
    intros [= <-]. simpl. apply successes_none. intros tx'.
    rewrite <- Hcalls, elem_of_calls_of. intros (Hin & Hc' & _).
    destruct (Hfail tx' Hin Hc') as (n & Hn & Hne).
    unfold succeeded. rewrite Hn. apply bool_decide_eq_false_2. congruence. }
  assert (Hne : final ≠ ∅).
  { rewrite Forall_forall in Hread. destruct (Hread tx Htx) as [Hsender _].
    destruct Hsender as [a Ha].
    { unfold counted in Hc. by apply andb_true_iff in Hc as [? _]. }
    assert (Hin : tx ∈ calls_of vault_address a transactions)
      by by apply elem_of_calls_of.
    intros Hempty. specialize (Hfinal a). rewrite Hempty, lookup_empty in Hfinal.
    destruct (calls_of vault_address a transactions); [|done].
    by apply elem_of_nil in Hin. }
  destruct (report_all_zero final Hne Hzero) as [Htotal Hreport].
  exists t, final. repeat split; try done.
  unfold summarize_transactions.
  by rewrite Hrun, bind_returned, Hreport.
Qed.

Lemma sender_is_functional a b tx : sender_is a tx → sender_is b tx → a = b.
Proof. unfold sender_is. congruence. Qed.

(** The report on the map of one operator at 3 and another at 1. *)
Lemma report_three_and_one (a b : string) :
  a ≠ b →
  histogram (<[a := {| successful := 3 |}]> {[b := {| successful := 1 |}]})
  = {[1 := 1; 3 := 1]} ∧
  report (<[a := {| successful := 3 |}]> {[b := {| successful := 1 |}]})
  = ([Printed (LineOperators 1 1); Printed (LineOperators 3 1);
      Printed (LineTotal 4); Printed (LineMax 3);
      Printed (LineExposure (3 # 4));
      Logged INFO (MsgText "Validator summary generated successfully.")],
     Returned tt).
Proof.
  intros Hab.
  set (final := <[a := {| successful := 3 |}]> {[b := {| successful := 1 |}]}).
  assert (Hvalues : successful <$> values final ≡ₚ [3; 1]).
  { unfold values, final.
    rewrite map_to_list_insert by by rewrite lookup_singleton_ne.
    by rewrite map_to_list_singleton. }
  assert (Hhist : histogram final = {[1 := 1; 3 := 1]}).
  { apply map_eq. intros count. unfold histogram.
    rewrite Counter_lookup, (occurrences_Permutation _ _ _ Hvalues).
    destruct (decide (count = 1)) as [->|H1]; [done|].
    destruct (decide (count = 3)) as [->|H3]; [done|].
    rewrite lookup_insert_ne, lookup_singleton_ne by done.
    rewrite !occurrences_cons.
    destruct (Z.eqb_spec count 3); [done|].
    destruct (Z.eqb_spec count 1); [done|]. done. }
  split; [done|].
  unfold report. rewrite decide_False; last first.
  { intros Hempty. assert (Ha : final !! a = None) by by rewrite Hempty.
    unfold final in Ha. by rewrite lookup_insert_eq in Ha. }
  change (Counter (successful <$> values final)) with (histogram final).
  by rewrite Hhist.
Qed.

(** C1, amended. Take a list of records that are all counted (aggregate calls
    that reference the vault) and all readable: the checksum function accepts
    the ['from'] of each, each has a ['hash'], and [int] reads the error flag
    of each.  For the empty list the function logs and prints
    ["No NodeSet-related Aggregate transactions found."] and returns.  For a
    list that is not empty the loop ends normally; the operators are the
    senders, put in checksum form, each with
    the number of its records whose error flag reads as zero.  The histogram
    maps a count to the number of operators at that count; one line per
    bucket is printed, in ascending order, then the total and the maximum;
    the total is the sum over the buckets of count times operators, which is
    the sum of the operators' counts; the maximum is the largest count of an
    operator.  When the total is not 0 the quotient maximum / total is printed
    next and the function returns.  With three successful records from one
    address and one from another, the histogram is {1: 1, 3: 1}, the total 4,
    the maximum 3 and the quotient 3/4. *)
Theorem summary_of_counted_records (vault_address : string)
    (transactions : list TransactionRecord) :
  Forall (readable vault_address) transactions →
  Forall (λ tx, counted vault_address tx = true) transactions →
  (transactions = [] →
   summarize_transactions vault_address transactions
   = ([Logged INFO (MsgText "No NodeSet-related Aggregate transactions found.");
       Printed (LineText "No NodeSet-related Aggregate transactions found.")],
      Returned tt)) ∧
  (transactions ≠ [] →
  ∃ t final max_validators,
    aggregate_loop vault_address transactions ∅ = (t, Returned final) ∧
    (∀ a, final !! a =
          match calls_of vault_address a transactions with
          | [] => None
          | calls => Some {| successful := successes calls |}
          end) ∧
    (∀ count n, histogram final !! count = Some n
                ↔ n = operators_with final count ∧ 0 < n) ∧
    total_of final
    = sum_Z ((λ count, operators_with final count * count)
               <$> sorted (keys (histogram final))) ∧
    total_of final = sum_Z (successful <$> values final) ∧
    (∃ a stats, final !! a = Some stats ∧ successful stats = max_validators) ∧
    (∀ a stats, final !! a = Some stats → successful stats ≤ max_validators) ∧
    (∃ rest,
       (summarize_transactions vault_address transactions).1
       = t ++ (Printed <$> ((λ count, LineOperators count (operators_with final count))
                              <$> sorted (keys (histogram final))))
           ++ [Printed (LineTotal (total_of final));
               Printed (LineMax max_validators)]
           ++ rest ∧
       (total_of final ≠ 0 →
        rest = [Printed (LineExposure (inject_Z max_validators
                                       / inject_Z (total_of final)));
                Logged INFO (MsgText "Validator summary generated successfully.")] ∧
        (summarize_transactions vault_address transactions).2 = Returned tt)) ∧
    (∀ a b,
       a ≠ b →
       Forall (λ tx, (sender_is a tx ∨ sender_is b tx) ∧ error_flag tx = Some 0)
              transactions →
       length (calls_of vault_address a transactions) = 3%nat →
       length (calls_of vault_address b transactions) = 1%nat →
       histogram final = {[1 := 1; 3 := 1]} ∧
       total_of final = 4 ∧
       max_validators = 3 ∧
       (inject_Z max_validators / inject_Z (total_of final) == 0.75)%Q ∧
       summarize_transactions vault_address transactions
       = (t ++ [Printed (LineOperators 1 1); Printed (LineOperators 3 1);
                Printed (LineTotal 4); Printed (LineMax 3);
                Printed (LineExposure (3 # 4));
                Logged INFO (MsgText "Validator summary generated successfully.")],
          Returned tt))).
Proof.
  intros Hread Hcounted. split; [by intros ->|]. intros Hnil.
  destruct (aggregate_loop_from_empty vault_address transactions Hread)
    as (t & final & Hrun & Hfinal).
  assert (Hne : final ≠ ∅).
  { destruct transactions as [|tx transactions]; [done|].
    apply Forall_cons in Hread as [[Hsender _] _].
    apply Forall_cons in Hcounted as [Hc _].
    destruct Hsender as [a Ha].
    { unfold counted in Hc. by apply andb_true_iff in Hc as [? _]. }
    assert (Hin : tx ∈ calls_of vault_address a (tx :: transactions)).
    { apply elem_of_calls_of. split; [by left | done]. }
    intros Hempty. specialize (Hfinal a). rewrite Hempty, lookup_empty in Hfinal.
    destruct (calls_of vault_address a (tx :: transactions)); [|done].
    by apply elem_of_nil in Hin. }
  destruct (report_nonempty final Hne) as (mx & Hlast & Hreport).
  destruct (last_StronglySorted _ _ (sorted_StronglySorted _) Hlast)
    as [Hmx_in Hmx_max].
  assert (Hsum : summarize_transactions vault_address transactions
                 = prepend t (report final)).
  { unfold summarize_transactions.
    by rewrite Hrun, bind_returned. }
  exists t, final, mx. split; [done|]. split; [done|].
  split; [apply histogram_lookup|].
  split; [apply total_of_buckets|].
  split; [apply total_of_operators|].
  split; [by apply elem_of_sorted_counts|].
  split.
  { intros a stats Ha. apply Hmx_max, elem_of_sorted_counts. by exists a, stats. }
  split.
  { exists (exposure mx (total_of final)).1. split.
    - rewrite Hsum, Hreport. unfold prepend. cbn [fst].
      rewrite <- !app_assoc. do 2 f_equal. f_equal.
      apply list_fmap_ext. intros _ count _.
      unfold bucket_line. by rewrite histogram_default.
    - intros Hnz. rewrite Hsum, Hreport. unfold prepend, exposure. cbn [snd].
      by destruct (Z.eqb_spec (total_of final) 0). }
  intros a b Hab Hall Hthree Hone.
  assert (Hmap : final = <[a := {| successful := 3 |}]> {[b := {| successful := 1 |}]}).
  { apply map_eq. intros c. rewrite Hfinal.
    assert (Hsucc : ∀ c', successes (calls_of vault_address c' transactions)
                          = Z.of_nat (length (calls_of vault_address c' transactions))).
    { intros c'. apply successes_all. intros tx [Hin _]%elem_of_calls_of.
      rewrite Forall_forall in Hall. destruct (Hall tx Hin) as [_ Hflag].
      unfold succeeded. by apply bool_decide_eq_true_2. }
    destruct (decide (c = a)) as [->|Hca].
    { rewrite lookup_insert_eq. specialize (Hsucc a). rewrite Hthree in Hsucc.
      destruct (calls_of vault_address a transactions); [done|]. by rewrite Hsucc. }
    rewrite lookup_insert_ne by done.
    destruct (decide (c = b)) as [->|Hcb].
    { rewrite lookup_singleton_eq. specialize (Hsucc b). rewrite Hone in Hsucc.
      destruct (calls_of vault_address b transactions); [done|]. by rewrite Hsucc. }
    rewrite lookup_singleton_ne by done.
    destruct (calls_of vault_address c transactions) as [|tx calls] eqn:Hcalls;
      [done|].
    assert (Hin : tx ∈ calls_of vault_address c transactions)
      by (rewrite Hcalls; by left).
    apply elem_of_calls_of in Hin as (Hin & _ & Hsender).
    rewrite Forall_forall in Hall. destruct (Hall tx Hin) as [[Hs|Hs] _].
    - destruct Hca. by eapply sender_is_functional.
    - destruct Hcb. by eapply sender_is_functional. }
  destruct (report_three_and_one a b Hab) as [Hhist Hrep].
  rewrite <- Hmap in Hhist, Hrep.
  assert (Hmx : mx = 3).
  { rewrite Hhist in Hlast. by injection Hlast as <-. }
  assert (Htotal : total_of final = 4).
  { unfold total_of. by rewrite Hhist. }
  split; [done|]. split; [done|]. split; [done|].
  split; [by rewrite Hmx, Htotal|].
  by rewrite Hsum, Hrep.
Qed.

End SummaryProperties.

(** ** TransactionHistoryFetcher *)

(** One pass through the body of the [for] loop never raises and never waits:
    it makes one request, for [page]; it ends in [continue] only before the
    last attempt, after one sleep of [RETRY_DELAY * 2 ** attempt] seconds, and
    sleeps in no other case. *)
Lemma attempt_once_cases r page attempt all_transactions :
  ∃ t fl,
    attempt_once r page attempt all_transactions = (HttpGet page :: t, Returned fl) ∧
    requested_pages t = [] ∧
    ((fl = Continue ∧ attempt < MAX_RETRIES - 1
      ∧ t = [Sleep (RETRY_DELAY * 2 ^ attempt)])
     ∨ (fl ≠ Continue ∧ sleeps t = [])).
Proof.
  unfold attempt_once, try_body, handler, try_except.
  destruct r as [|status_code b].
  { run_M. eexists _, _. split; [reflexivity|]. split; [done|]. by right. }
  destruct (raises_for_status status_code) eqn:Hraise.
  { run_M.
    destruct (status_code =? 429); simpl;
      [destruct (Z.ltb_spec attempt (MAX_RETRIES - 1)); simpl|];
      eexists _, _; (split; [reflexivity|]); (split; [done|]); auto. }
  destruct b as [from_requests|data].
  { run_M. destruct from_requests; simpl;
      eexists _, _; (split; [reflexivity|]); (split; [done|]); by right. }
  run_M. destruct (decide (status data = Some "0")); simpl.
  { eexists _, _. split; [reflexivity|]. split; [done|]. by right. }
  destruct (_ <? PAGE_OFFSET); simpl;
    eexists _, _; (split; [reflexivity|]); (split; [done|]); by right.
Qed.

Lemma fetch_loop_cons r script page attempt all_transactions :
  fetch_loop (r :: script) page attempt all_transactions
  = (attempt_once r page attempt all_transactions ≫= λ fl,
       match fl with
       | Return all_transactions => mret all_transactions
       | Break all_transactions => fetch_loop script (page + 1) 0 all_transactions
       | Continue =>
           fetch_loop script page
             (if attempt + 1 <? MAX_RETRIES then attempt + 1 else 0)
             all_transactions
       end).
Proof. reflexivity. Qed.

Lemma attempt_once_fails r page attempt all_transactions :
  fails r = true →
  ∃ msg, attempt_once r page attempt all_transactions
         = ([HttpGet page; Logged ERROR msg], Returned (Return all_transactions)).
Proof.
  unfold fails, attempt_once, try_body, handler, try_except.
  destruct r as [|status_code b].
  { intros _. run_M. by eexists. }
  destruct (raises_for_status status_code).
  { intros Hcode%negb_true_iff. run_M. rewrite Hcode. simpl. by eexists. }
  destruct b as [[]|data]; [| |done]; intros _; run_M; by eexists.
Qed.

Lemma attempt_once_rate_limited b page attempt all_transactions :
  attempt_once (Response 429 b) page attempt all_transactions
  = if attempt <? MAX_RETRIES - 1
    then ([HttpGet page; Sleep (RETRY_DELAY * 2 ^ attempt)], Returned Continue)
    else ([HttpGet page; Logged ERROR (MsgFetchFailed page (HTTPError 429))],
          Returned (Return all_transactions)).
Proof.
  unfold attempt_once, try_body, handler, try_except. run_M.
  by destruct (attempt <? MAX_RETRIES - 1).
Qed.

Lemma attempt_once_page r transactions page attempt all_transactions :
  page_of r = Some transactions →
  attempt_once r page attempt all_transactions
  = ([HttpGet page;
      Logged INFO (MsgFetched (Z.of_nat (length transactions)) page)],
     Returned (if Z.of_nat (length transactions) <? PAGE_OFFSET
               then Return (all_transactions ++ transactions)
               else Break (all_transactions ++ transactions))).
Proof.
  unfold page_of, attempt_once, try_body, handler, try_except.
  destruct r as [|status_code [from_requests|data]]; try done.
  destruct (raises_for_status status_code); [done|].
  destruct (decide (status data = Some "0")); [done|].
  intros [= <-]. run_M. by destruct (_ <? PAGE_OFFSET).
Qed.


(** Full pages are taken one after the other, the page number moving up by
    one each time and the attempt counter starting again at 0. *)
Lemma fetch_loop_full_pages pages rest page attempt all_transactions :
  Forall (λ r, is_full_page r = true) pages →
  fetch_loop (pages ++ rest) page attempt all_transactions
  = prepend (full_pages_trace page pages)
      (fetch_loop rest (page + Z.of_nat (length pages)) 
         (if decide (pages = []) then attempt else 0)
         (all_transactions ++ concat (records_of <$> pages))).
Proof.
  intros Hfull. revert page attempt all_transactions.
  induction Hfull as [|r pages Hr _ IH]; intros page attempt all_transactions.
  - simpl. by rewrite prepend_nil, Z.add_0_r, app_nil_r.
  - unfold is_full_page in Hr.
    destruct (page_of r) as [transactions|] eqn:Hpage; [|done].
    apply Z.leb_le in Hr.
    rewrite <- app_comm_cons, fetch_loop_cons.
    rewrite (attempt_once_page _ transactions) by done.
    destruct (Z.ltb_spec (Z.of_nat (length transactions)) PAGE_OFFSET); [lia|].
    rewrite bind_returned, IH, prepend_prepend.
    assert (Hrec : records_of r = transactions)
      by (unfold records_of; by rewrite Hpage).
    rewrite (decide_False (P := r :: pages = [])) by done.
    cbn [full_pages_trace]. rewrite fmap_cons, Hrec. cbn [concat length].
    rewrite Nat2Z.inj_succ, app_assoc.
    replace (page + Z.succ (Z.of_nat (length pages)))
      with (page + 1 + Z.of_nat (length pages)) by lia.
    by destruct (decide (pages = [])).
Qed.


Lemma requested_pages_app t1 t2 :
  requested_pages (t1 ++ t2) = requested_pages t1 ++ requested_pages t2.
Proof. apply omap_app. Qed.


(** No exception leaves the fetcher, whatever the replies and the state. *)
Lemma fetch_loop_no_exception script page attempt all_transactions e :
  (fetch_loop script page attempt all_transactions).2 ≠ Raised e.
Proof.
  revert page attempt all_transactions.
  induction script as [|r script IH]; intros page attempt all_transactions; [done|].
  rewrite fetch_loop_cons.
  destruct (attempt_once_cases r page attempt all_transactions)
    as (t & fl & -> & _).
  rewrite bind_returned. unfold prepend. simpl.
  destruct fl; [done | apply IH | apply IH].
Qed.


Lemma fetch_loop_fails r rest page attempt all_transactions :
  fails r = true →
  ∃ msg, fetch_loop (r :: rest) page attempt all_transactions
         = ([HttpGet page; Logged ERROR msg], Returned all_transactions).
Proof.
  intros Hr. rewrite fetch_loop_cons.
  destruct (attempt_once_fails r page attempt all_transactions Hr) as [msg ->].
  by exists msg.
Qed.

Lemma fetch_loop_rate_limited b rest page attempt all_transactions :
  fetch_loop (Response 429 b :: rest) page attempt all_transactions
  = if attempt <? MAX_RETRIES - 1
    then prepend [HttpGet page; Sleep (RETRY_DELAY * 2 ^ attempt)]
           (fetch_loop rest page
              (if attempt + 1 <? MAX_RETRIES then attempt + 1 else 0)
              all_transactions)
    else ([HttpGet page; Logged ERROR (MsgFetchFailed page (HTTPError 429))],
          Returned all_transactions).
Proof.
  rewrite fetch_loop_cons, attempt_once_rate_limited.
  by destruct (attempt <? MAX_RETRIES - 1).
Qed.



(** *** The fetcher on replies of any shape *)







Lemma raw_of_reply_fails r : raw_fails (raw_of_reply r) = fails r.
Proof. by destruct r as [|status_code [from_requests|data]]. Qed.








(** ** The properties on concrete runs *)

Lemma readable_sample vault_address sender payload flag :
  is_Some (sample_checksum sender) →
  is_Some (PyStr.int flag) →
  @readable sample_checksum vault_address (sample_tx sender payload flag).
Proof. intros Hsender Hflag. split; intros _; [done|]. split; [by eexists | done]. Qed.

Lemma sample_transactions_readable :
  Forall (@readable sample_checksum NODESET_VAULT_ADDRESS) sample_transactions.
Proof.
  repeat (apply Forall_cons_2; [apply readable_sample; by eexists|]).
  apply Forall_nil_2.
Qed.

Lemma failed_transactions_readable :
  Forall (@readable sample_checksum NODESET_VAULT_ADDRESS) failed_transactions.
Proof.
  repeat (apply Forall_cons_2; [apply readable_sample; by eexists|]).
  apply Forall_nil_2.
Qed.

Lemma summary_of_counted_records_witness :
  ∃ t, @summarize_transactions sample_checksum NODESET_VAULT_ADDRESS
         sample_transactions
       = (t ++ [Printed (LineOperators 1 1); Printed (LineOperators 3 1);
                Printed (LineTotal 4); Printed (LineMax 3);
                Printed (LineExposure (3 # 4));
                Logged INFO (MsgText "Validator summary generated successfully.")],
          Returned tt).
Proof.
  destruct (@summary_of_counted_records sample_checksum NODESET_VAULT_ADDRESS
              sample_transactions) as [_ Hsummary].
  - exact sample_transactions_readable.
  - repeat constructor.
  - destruct Hsummary
      as (t & final & mx & _ & _ & _ & _ & _ & _ & _ & _ & Hexample);
      [discriminate|].
    destruct (Hexample ADDRESS_A ADDRESS_B) as (_ & _ & _ & _ & Hsum).
    + discriminate.
    + repeat constructor; by (left + right).
    + reflexivity.
    + reflexivity.
    + exists t. exact Hsum.
Defined.

(** C1 as stated, for every list of relevant aggregate records: the empty
    list gets the message only, two failed calls get no quotient, and a call
    whose error flag [int] does not read gets no line at all: the function
    raises [ValueError] in the loop. *)
Lemma summary_not_always_printed :
  ¬ prints_summary
      (@summarize_transactions sample_checksum NODESET_VAULT_ADDRESS []).1 ∧
  ¬ prints_summary
      (@summarize_transactions sample_checksum NODESET_VAULT_ADDRESS
         failed_transactions).1 ∧
  (counted NODESET_VAULT_ADDRESS (sample_tx ADDRESS_A VAULT_CALL "false") = true ∧
   @summarize_transactions sample_checksum NODESET_VAULT_ADDRESS
     [sample_tx ADDRESS_A VAULT_CALL "false"]
   = ([Logged INFO (MsgFound ADDRESS_A "0xfeed")], Raised ValueError)).
Proof.
  split; [|split; [|by split]];
    intros (total & mx & _ & _ & Hratio); vm_compute in Hratio;
    repeat (apply elem_of_cons in Hratio as [Hratio|Hratio]; [discriminate|]);
    by apply elem_of_nil in Hratio.
Qed.




Lemma non_aggregate_record_excluded_witness :
  is_nodeset_transaction (sample_tx ADDRESS_A TRANSFER_CALL "0")
    NODESET_VAULT_ADDRESS = true ∧
  @loop_body sample_checksum NODESET_VAULT_ADDRESS
    (sample_tx ADDRESS_A TRANSFER_CALL "0") ∅
  = ([], Returned ∅).
Proof.
  split; [reflexivity|].
  apply (@non_aggregate_record_excluded sample_checksum NODESET_VAULT_ADDRESS
           (sample_tx ADDRESS_A TRANSFER_CALL "0")).
  discriminate.
Defined.

Lemma is_nodeset_transaction_substring_witness :
  is_nodeset_transaction (sample_tx ADDRESS_A TRANSFER_CALL "0")
    ("0x" +:+ "b266274f55e784689e97b7e363b0666d92e6305b") = true.
Proof.
  apply (proj2 (proj2 (is_nodeset_transaction_substring
                         (sample_tx ADDRESS_A TRANSFER_CALL "0")))
           "b266274f55e784689e97b7e363b0666d92e6305b"
           "0xa9059cbb000000000000000000000000" "").
  reflexivity.
Defined.

Lemma failed_call_leaves_counts_witness :
  ∃ address_stats',
    @loop_body sample_checksum NODESET_VAULT_ADDRESS
      (sample_tx ADDRESS_A VAULT_CALL "1")
      {[ADDRESS_A := {| successful := 2 |}]}
    = ([Logged INFO (MsgFound ADDRESS_A "0xfeed")], Returned address_stats') ∧
    address_stats' !! ADDRESS_A = Some {| successful := 2 |} ∧
    address_stats' !! ADDRESS_B = None.
Proof.
  destruct (@failed_call_leaves_counts sample_checksum NODESET_VAULT_ADDRESS
              (sample_tx ADDRESS_A VAULT_CALL "1")
              {[ADDRESS_A := {| successful := 2 |}]} ADDRESS_A "0xfeed" 1)
    as (address_stats' & Hrun & Hother & Hfail & _).
  - reflexivity.
  - reflexivity.
  - reflexivity.
  - reflexivity.
  - exists address_stats'. split; [exact Hrun|]. split.
    + rewrite Hfail; [reflexivity | discriminate].
    + rewrite Hother; [reflexivity | discriminate].
Defined.

(** C6 as stated, for every relevant aggregate record with a non-zero error
    flag: on such a record without ['hash'] the loop body raises [KeyError]
    before it writes anything, so that a sender not seen before gets no entry
    and the function ends there. *)
Lemma failed_call_without_hash_raises :
  counted NODESET_VAULT_ADDRESS unhashed_tx = true ∧
  error_flag unhashed_tx = Some 1 ∧
  @sender_is sample_checksum ADDRESS_A unhashed_tx ∧
  @loop_body sample_checksum NODESET_VAULT_ADDRESS unhashed_tx ∅
  = ([], Raised (KeyError "hash")) ∧
  @summarize_transactions sample_checksum NODESET_VAULT_ADDRESS [unhashed_tx]
  = ([], Raised (KeyError "hash")).
Proof. by repeat split. Qed.

Lemma no_counted_record_reports_empty_witness :
  @summarize_transactions sample_checksum NODESET_VAULT_ADDRESS
    [sample_tx ADDRESS_A TRANSFER_CALL "0"; sample_tx ADDRESS_B OTHER_CALL "0"]
  = ([Logged INFO (MsgText "No NodeSet-related Aggregate transactions found.");
      Printed (LineText "No NodeSet-related Aggregate transactions found.")],
     Returned tt).
Proof.
  apply (@no_counted_record_reports_empty sample_checksum NODESET_VAULT_ADDRESS).
  - repeat (apply Forall_cons_2; [intros _; eexists; reflexivity|]).
    apply Forall_nil_2.
  - repeat (apply Forall_cons_2; [reflexivity|]). apply Forall_nil_2.
Defined.

(** C7 as stated, for every list without a record both aggregate and
    relevant: an aggregate call that does not reference the vault has its
    sender read all the same, and without ['from'], or with a ['from'] that
    the checksum function rejects, the function raises instead of reporting
    the empty result. *)
Lemma uncounted_record_raises :
  counted NODESET_VAULT_ADDRESS anonymous_tx = false ∧
  @summarize_transactions sample_checksum NODESET_VAULT_ADDRESS [anonymous_tx]
  = ([], Raised (KeyError "from")) ∧
  counted NODESET_VAULT_ADDRESS (sample_tx "nobody" OTHER_CALL "0") = false ∧
  @summarize_transactions sample_checksum NODESET_VAULT_ADDRESS
    [sample_tx "nobody" OTHER_CALL "0"]
  = ([], Raised ValueError).
Proof. by repeat split. Qed.


Lemma operator_stats_invariants_witness :
  ∃ t final,
    @aggregate_loop sample_checksum NODESET_VAULT_ADDRESS sample_transactions ∅
    = (t, Returned final) ∧
    sum_Z ((map_to_list (histogram final)).*2) = Z.of_nat (size final).
Proof.
  destruct (@aggregate_loop_from_empty sample_checksum NODESET_VAULT_ADDRESS
              sample_transactions sample_transactions_readable)
    as (t & final & Hrun & _).
  exists t, final. split; [exact Hrun|].
  apply (@operator_stats_invariants sample_checksum NODESET_VAULT_ADDRESS
           (take 1 sample_transactions) (drop 1 sample_transactions) t final).
  exact Hrun.
Defined.

Lemma all_failed_calls_divide_by_zero_witness :
  ∃ t (final : gmap string OperatorStats),
    @summarize_transactions sample_checksum NODESET_VAULT_ADDRESS
      failed_transactions
    = (t ++ [Printed (LineOperators 0 (Z.of_nat (size final)));
             Printed (LineTotal 0); Printed (LineMax 0)],
       Raised ZeroDivisionError).
Proof.
  destruct (@all_failed_calls_divide_by_zero sample_checksum
              NODESET_VAULT_ADDRESS failed_transactions)
    as (t & final & _ & _ & _ & _ & Hsum).
  - exact failed_transactions_readable.
  - exists (sample_tx ADDRESS_A VAULT_CALL "1"). split; [by left | reflexivity].
  - intros tx Htx _. exists 1.
    apply list_elem_of_In in Htx. simpl in Htx.
    destruct Htx as [<-|[<-|[]]]; (split; [reflexivity | discriminate]).
  - exists t, final. exact Hsum.
Defined.

Example all_failed_calls_run :
  @summarize_transactions sample_checksum NODESET_VAULT_ADDRESS failed_transactions
  = ([Logged INFO (MsgFound ADDRESS_A "0xfeed");
      Logged INFO (MsgFound ADDRESS_B "0xfeed");
      Printed (LineOperators 0 2); Printed (LineTotal 0); Printed (LineMax 0)],
     Raised ZeroDivisionError).
Proof. reflexivity. Qed.

(** * Further properties of the code *)

(** ** RelevanceFilter: lengths and the selector *)

Lemma append_length s1 s2 :
  String.length (s1 +:+ s2) = (String.length s1 + String.length s2)%nat.
Proof.
  induction s1 as [|c s1 IH]; [done|].
  rewrite append_cons. simpl. by rewrite IH.
Qed.

Lemma slice_from_length n s :
  String.length (PyStr.slice_from n s) = (String.length s - n)%nat.
Proof. revert s. induction n as [|n IH]; intros [|c s]; simpl; auto. Qed.

Lemma slice_split n s : s = PyStr.slice_to n s +:+ PyStr.slice_from n s.
Proof.
  revert s. induction n as [|n IH]; intros [|c s]; try done.
  simpl. rewrite append_cons. by rewrite <- IH.
Qed.

Lemma slice_to_app sel rest :
  PyStr.slice_to (String.length sel) (sel +:+ rest) = sel.
Proof.
  induction sel as [|c sel IH]; [by destruct rest|].
  rewrite append_cons. simpl. by rewrite IH.
Qed.

Lemma is_nodeset_transaction_contains tx vault_address :
  is_nodeset_transaction tx vault_address = true →
  ∃ pre post,
    PyStr.lower (input_of tx)
    = pre +:+ PyStr.slice_from 2 (PyStr.lower vault_address) +:+ post.
Proof.
  unfold is_nodeset_transaction. rewrite <- contains_spec.
  by destruct (PyStr.contains _ _).
Qed.

(** A payload shorter than the address without its first two characters is
    never relevant: so it is with a record that has no ['input'] key, for an
    address of more than two characters. *)
Theorem short_payload_not_relevant (tx : TransactionRecord)
    (vault_address : string) :
  PyStr.len (input_of tx) < PyStr.len vault_address - 2 →
  is_nodeset_transaction tx vault_address = false.
Proof.
  unfold PyStr.len. intros Hlen. apply not_true_is_false.
  intros (pre & post & Hsplit)%is_nodeset_transaction_contains.
  apply (f_equal String.length) in Hsplit.
  rewrite !append_length, !lower_length, slice_from_length, lower_length in Hsplit.
  lia.
Qed.

Lemma short_payload_not_relevant_witness :
  is_nodeset_transaction
    {| tx_from := Some ADDRESS_A; tx_input := None; tx_hash := None;
       tx_isError := None |}
    NODESET_VAULT_ADDRESS = false.
Proof. apply short_payload_not_relevant. reflexivity. Defined.

(** The test of line 134 holds exactly for the payloads that start with ten
    characters equal, up to case, to the selector: the payload being non-empty
    and of length 10 at least follows from that, and what comes after the
    tenth character plays no part. *)
Theorem aggregate_call_prefix (input_data : string) :
  is_aggregate_call input_data = true ↔
  ∃ selector rest,
    input_data = selector +:+ rest ∧
    String.length selector = 10%nat ∧
    PyStr.lower selector = "0x252dba42".
Proof.
  rewrite is_aggregate_call_spec. split.
  - intros Heq. exists (PyStr.slice_to 10 input_data), (PyStr.slice_from 10 input_data).
    split; [apply slice_split|]. split; [|done].
    by rewrite <- lower_length, Heq.
  - intros (selector & rest & -> & Hlen & Heq).
    by rewrite <- Hlen, slice_to_app, Heq.
Qed.

(** ** OperatorAggregator: what the loop raises and what it writes *)

Section LoopEdges.

Context `{Web3}.

(** The loop body in every case: it ends at once, it logs the line of a
    counted record at most, and the only exceptions are the missing keys
    ['from'] and ['hash'] and a [ValueError] (checksum rejected, flag not a
    number). *)
Lemma loop_body_cases vault_address tx address_stats :
  ∃ t o,
    loop_body vault_address tx address_stats = (t, o) ∧
    (t = [] ∨ ∃ a hash, t = [Logged INFO (MsgFound a hash)]) ∧
    ((∃ address_stats', o = Returned address_stats') ∨
     o = Raised (KeyError "from") ∨ o = Raised (KeyError "hash") ∨
     o = Raised ValueError).
Proof.
  destruct (is_aggregate_call (input_of tx)) eqn:Hsel; last first.
  { rewrite loop_body_not_aggregate by done. eexists _, _.
    split; [reflexivity|]. split; [by left | left; by eexists]. }
  unfold loop_body, checksum. rewrite Hsel.
  destruct (tx_from tx) as [sender|]; last first.
  { eexists _, _. split; [reflexivity|]. split; [by left | auto]. }
  run_M. destruct (to_checksum_address sender) as [a|]; simpl; last first.
  { eexists _, _. split; [reflexivity|]. split; [by left | auto]. }
  destruct (is_nodeset_transaction tx vault_address); simpl; last first.
  { eexists _, _. split; [reflexivity|]. split; [by left | left; by eexists]. }
  destruct (tx_hash tx) as [hash|]; simpl; last first.
  { eexists _, _. split; [reflexivity|]. split; [by left | auto]. }
  destruct (PyStr.int (default "0" (tx_isError tx))) as [n|]; simpl; last first.
  { eexists _, _. split; [reflexivity|]. split; [right; by eexists _, _ | auto]. }
  destruct (n =? 0); simpl; eexists _, _;
    (split; [reflexivity|]); (split; [right; by eexists _, _ | left; by eexists]).
Qed.

(** The loop writes log lines only, and raises what its body raises. *)
Lemma aggregate_loop_cases vault_address transactions address_stats :
  ∃ t o,
    aggregate_loop vault_address transactions address_stats = (t, o) ∧
    printed t = [] ∧ Forall (λ e, is_network e = false) t ∧
    ((∃ final, o = Returned final) ∨
     o = Raised (KeyError "from") ∨ o = Raised (KeyError "hash") ∨
     o = Raised ValueError).
Proof.
  revert address_stats.
  induction transactions as [|tx transactions IH]; intros address_stats.
  { eexists _, _. split; [reflexivity|]. split; [done|]. split; [done|].
    left. by eexists. }
  cbn [aggregate_loop].
  destruct (loop_body_cases vault_address tx address_stats)
    as (t1 & o1 & -> & Ht1 & Ho1).
  assert (Hlog : printed t1 = [] ∧ Forall (λ e, is_network e = false) t1).
  { destruct Ht1 as [->|(a & hash & ->)]; split; try done.
    by repeat constructor. }
  destruct Hlog as [Hprinted Hnet].
  destruct Ho1 as [[mid ->]|Hraised].
  - rewrite bind_returned.
    destruct (IH mid) as (t2 & o2 & -> & Hprinted2 & Hnet2 & Ho2).
    unfold prepend. cbn [fst snd].
    eexists _, _. split; [reflexivity|]. unfold printed in *.
    rewrite omap_app, Hprinted, Hprinted2. split; [done|].
    split; [by apply Forall_app|done].
  - exists t1, o1. split.
    { destruct Hraised as [->|[->| ->]]; reflexivity. }
    split; [done|]. split; [done|]. by right.
Qed.

(** An aggregate call without the ['from'] key ends the summary with
    [KeyError], whether or not it references the vault and whatever comes
    after it: line 135 reads the sender before the relevance test of line
    136.  Nothing has been printed by then. *)
Theorem aggregate_call_without_sender_aborts (vault_address : string)
    (before after : list TransactionRecord) (tx : TransactionRecord) :
  Forall (readable vault_address) before →
  is_aggregate_call (input_of tx) = true →
  tx_from tx = None →
  ∃ t,
    summarize_transactions vault_address (before ++ tx :: after)
    = (t, Raised (KeyError "from")) ∧
    printed t = [].
Proof.
  intros Hread Hsel Hfrom.
  destruct (aggregate_loop_spec vault_address before Hread ∅)
    as (t & mid & Hrun & _).
  assert (Hprinted : printed t = []).
  { destruct (aggregate_loop_cases vault_address before ∅)
      as (t' & o & Hrun' & Hp & _). rewrite Hrun in Hrun'. by injection Hrun' as ->. }
  exists t. split; [|done].
  unfold summarize_transactions. rewrite aggregate_loop_app, Hrun, bind_returned.
  cbn [aggregate_loop]. unfold loop_body at 1. rewrite Hsel, Hfrom.
  unfold prepend. simpl. by rewrite app_nil_r.
Qed.

(** A counted record without the ['isError'] key is a success: the default
    ["0"] of line 141 reads as zero, and the sender's count goes up by one. *)
Theorem missing_error_flag_counts_as_success (vault_address : string)
    (tx : TransactionRecord) (address_stats : gmap string OperatorStats)
    (a hash : string) :
  counted vault_address tx = true →
  sender_is a tx →
  tx_hash tx = Some hash →
  tx_isError tx = None →
  loop_body vault_address tx address_stats
  = ([Logged INFO (MsgFound a hash)],
     Returned (<[a := {| successful := successful (entry_of address_stats a) + 1 |}]>
                 address_stats)).
Proof.
  intros Hc Hfrom Hhash Hflag.
  rewrite (loop_body_counted _ _ _ a hash 0); try done.
  unfold error_flag. by rewrite Hflag.
Qed.

(** A counted record that cannot be read ends the loop: without the ['hash']
    key by a [KeyError] before its log line, with an ['isError'] that [int]
    rejects by a [ValueError] after it. *)
Theorem unreadable_counted_record_aborts (vault_address : string)
    (tx : TransactionRecord) (address_stats : gmap string OperatorStats)
    (a : string) :
  counted vault_address tx = true →
  sender_is a tx →
  tx_hash tx = None ∨ error_flag tx = None →
  loop_body vault_address tx address_stats
  = match tx_hash tx with
    | None => ([], Raised (KeyError "hash"))
    | Some hash => ([Logged INFO (MsgFound a hash)], Raised ValueError)
    end.
Proof.
  unfold counted, sender_is, error_flag. intros Hc Hfrom Hbad.
  apply andb_true_iff in Hc as [Hsel Hrel].
  destruct (tx_from tx) as [sender|] eqn:Hsender; [|discriminate].
  simpl in Hfrom. unfold loop_body, checksum.
  rewrite Hsel, Hsender, Hrel. run_M. rewrite Hfrom. simpl.
  destruct (tx_hash tx) as [hash|]; simpl; [|done].
  destruct Hbad as [|Hflag]; [done|]. by rewrite Hflag.
Qed.

End LoopEdges.

Lemma aggregate_call_without_sender_aborts_witness :
  ∃ t,
    @summarize_transactions sample_checksum NODESET_VAULT_ADDRESS
      (sample_transactions
       ++ {| tx_from := None; tx_input := Some "0x252DBA42";
             tx_hash := Some "0xfeed"; tx_isError := Some "0" |}
          :: failed_transactions)
    = (t, Raised (KeyError "from")) ∧ printed t = [].
Proof.
  apply (@aggregate_call_without_sender_aborts sample_checksum
           NODESET_VAULT_ADDRESS sample_transactions failed_transactions
           {| tx_from := None; tx_input := Some "0x252DBA42";
              tx_hash := Some "0xfeed"; tx_isError := Some "0" |}).
  - exact sample_transactions_readable.
  - reflexivity.
  - reflexivity.
Defined.

Lemma missing_error_flag_counts_as_success_witness :
  @loop_body sample_checksum NODESET_VAULT_ADDRESS
    {| tx_from := Some ADDRESS_A; tx_input := Some VAULT_CALL;
       tx_hash := Some "0xfeed"; tx_isError := None |}
    {[ADDRESS_A := {| successful := 2 |}]}
  = ([Logged INFO (MsgFound ADDRESS_A "0xfeed")],
     Returned (<[ADDRESS_A := {| successful :=
                   successful (entry_of {[ADDRESS_A := {| successful := 2 |}]}
                                        ADDRESS_A) + 1 |}]>
                 {[ADDRESS_A := {| successful := 2 |}]})).
Proof.
  apply (@missing_error_flag_counts_as_success sample_checksum);
    reflexivity.
Defined.

Lemma unreadable_counted_record_aborts_witness :
  @loop_body sample_checksum NODESET_VAULT_ADDRESS
    (sample_tx ADDRESS_A VAULT_CALL "false") ∅
  = ([Logged INFO (MsgFound ADDRESS_A "0xfeed")], Raised ValueError).
Proof.
  apply (@unreadable_counted_record_aborts sample_checksum
           NODESET_VAULT_ADDRESS (sample_tx ADDRESS_A VAULT_CALL "false") ∅
           ADDRESS_A).
  - reflexivity.
  - reflexivity.
  - right. reflexivity.
Defined.

(** ** OperatorAggregator: totals, shares and the order of the lines *)

Lemma sum_Z_Permutation l1 l2 : l1 ≡ₚ l2 → sum_Z l1 = sum_Z l2.
Proof.
  induction 1 as [|x l1 l2 _ IH|x y l|l1 l2 l3 _ IH1 _ IH2].
  - done.
  - by rewrite !sum_Z_cons, IH.
  - rewrite !sum_Z_cons. lia.
  - by rewrite IH1.
Qed.

Lemma sum_Z_bounds l :
  (∀ x, x ∈ l → 0 ≤ x) →
  0 ≤ sum_Z l ∧ ∀ x, x ∈ l → x ≤ sum_Z l.
Proof.
  induction l as [|y l IH]; intros Hpos.
  - split; [done|]. by intros x ?%elem_of_nil.
  - destruct IH as [Hsum Hle]; [intros x Hx; apply Hpos; by right|].
    assert (0 ≤ y) by (apply Hpos; by left).
    rewrite sum_Z_cons. split; [lia|].
    intros x [->|Hx]%elem_of_cons; [lia|]. specialize (Hle x Hx). lia.
Qed.

Lemma sum_Z_nonpos l : (∀ x, x ∈ l → x ≤ 0) → sum_Z l ≤ 0.
Proof.
  induction l as [|y l IH]; intros Hle; [done|].
  rewrite sum_Z_cons.
  assert (y ≤ 0) by (apply Hle; by left).
  assert (sum_Z l ≤ 0) by (apply IH; intros x Hx; apply Hle; by right). lia.
Qed.

(** Writing the entry of [a] with its count moved by [d] moves the sum of the
    counts by [d]. *)
Lemma values_sum_insert (address_stats : gmap string OperatorStats) a d :
  sum_Z (successful <$> values
           (<[a := {| successful := successful (entry_of address_stats a) + d |}]>
              address_stats))
  = sum_Z (successful <$> values address_stats) + d.
Proof.
  unfold values, entry_of.
  destruct (address_stats !! a) as [old|] eqn:Ha; simpl.
  - rewrite <- (insert_delete_eq address_stats).
    rewrite (sum_Z_Permutation _
               (successful <$> ((a, {| successful := successful old + d |})
                                :: map_to_list (delete a address_stats)).*2)).
    2:{ apply fmap_Permutation, fmap_Permutation, map_to_list_insert,
          lookup_delete_eq. }
    rewrite (sum_Z_Permutation (successful <$> (map_to_list address_stats).*2)
               (successful <$> ((a, old) :: map_to_list (delete a address_stats)).*2)).
    2:{ apply fmap_Permutation, fmap_Permutation. symmetry.
        by apply map_to_list_delete. }
    rewrite !fmap_cons, !sum_Z_cons. simpl. lia.
  - rewrite (sum_Z_Permutation _
               (successful <$> ((a, {| successful := 0 + d |})
                                :: map_to_list address_stats).*2)).
    2:{ by apply fmap_Permutation, fmap_Permutation, map_to_list_insert. }
    rewrite !fmap_cons, !sum_Z_cons. simpl. lia.
Qed.

Lemma Qshare (a b : Z) :
  0 < a → a ≤ b → (0 < inject_Z a / inject_Z b ∧ inject_Z a / inject_Z b <= 1)%Q.
Proof.
  intros Ha Hab. destruct b as [|b|b]; try lia.
  unfold Qdiv, Qmult, Qinv, Qlt, Qle, inject_Z. simpl. lia.
Qed.

(** Ascending without repetition is strictly ascending. *)
Lemma StronglySorted_strict l :
  StronglySorted Z.le l → NoDup l → StronglySorted Z.lt l.
Proof.
  induction 1 as [|x l Hl IH Hx]; intros Hnd; [constructor|].
  apply NoDup_cons in Hnd as [Hnotin Hnd].
  constructor; [by apply IH|].
  rewrite Forall_forall in Hx |- *. intros y Hy.
  specialize (Hx y Hy). assert (x ≠ y) by (intros ->; done). lia.
Qed.

Lemma printed_app t1 t2 : printed (t1 ++ t2) = printed t1 ++ printed t2.
Proof. apply omap_app. Qed.

Lemma printed_Printed (lines : list line) : printed (Printed <$> lines) = lines.
Proof.
  induction lines as [|l lines IH]; [done|].
  rewrite fmap_cons.
  change (printed (Printed l :: (Printed <$> lines)))
    with (l :: printed (Printed <$> lines)).
  by rewrite IH.
Qed.

(** The bucket lines of the report come in strictly ascending order of the
    count, one line per count that some operator stands at, each with at
    least one operator; the total and the maximum follow, the maximum being
    the count of the last bucket line. *)
Theorem report_lines_ascending (address_stats : gmap string OperatorStats) :
  address_stats ≠ ∅ →
  ∃ counts max_validators rest,
    printed (report address_stats).1
    = ((λ count, LineOperators count (operators_with address_stats count))
         <$> counts)
      ++ LineTotal (total_of address_stats) :: LineMax max_validators :: rest ∧
    StronglySorted Z.lt counts ∧
    last counts = Some max_validators ∧
    (∀ count, count ∈ counts ↔ 1 ≤ operators_with address_stats count).
Proof.
  intros Hne. destruct (report_nonempty address_stats Hne) as (mx & Hlast & ->).
  exists (sorted (keys (histogram address_stats))), mx,
         (printed (exposure mx (total_of address_stats)).1).
  split; [|split; [|split]].
  - unfold prepend. cbn [fst]. rewrite !printed_app, printed_Printed.
    rewrite <- app_assoc. f_equal. apply list_fmap_ext. intros _ count _.
    unfold bucket_line. by rewrite histogram_default.
  - apply StronglySorted_strict; [apply sorted_StronglySorted|].
    apply sorted_NoDup, NoDup_fst_map_to_list.
  - done.
  - intros count. rewrite elem_of_sorted_counts, <- operators_with_pos. lia.
Qed.

Lemma report_lines_ascending_witness :
  ∃ counts max_validators rest,
    printed (report {[ADDRESS_A := {| successful := 3 |};
                      ADDRESS_B := {| successful := 1 |}]}).1
    = ((λ count, LineOperators count
                   (operators_with {[ADDRESS_A := {| successful := 3 |};
                                     ADDRESS_B := {| successful := 1 |}]} count))
         <$> counts)
      ++ LineTotal (total_of {[ADDRESS_A := {| successful := 3 |};
                               ADDRESS_B := {| successful := 1 |}]})
         :: LineMax max_validators :: rest ∧
    StronglySorted Z.lt counts ∧ last counts = Some max_validators.
Proof.
  destruct (report_lines_ascending
              {[ADDRESS_A := {| successful := 3 |};
                ADDRESS_B := {| successful := 1 |}]})
    as (counts & mx & rest & Hlines & Hsorted & Hlast & _).
  - discriminate.
  - exists counts, mx, rest.
    split; [exact Hlines | split; [exact Hsorted | exact Hlast]].
Defined.

Section SummaryFacts.

Context `{Web3}.

(** Over readable records the sum of the counts grows by the number of
    counted records that succeeded. *)
Lemma aggregate_loop_total vault_address transactions :
  Forall (readable vault_address) transactions →
  ∀ address_stats, ∃ t final,
    aggregate_loop vault_address transactions address_stats = (t, Returned final) ∧
    sum_Z (successful <$> values final)
    = sum_Z (successful <$> values address_stats)
      + Z.of_nat (length (successful_calls vault_address transactions)).
Proof.
  induction 1 as [|tx transactions Htx _ IH]; intros address_stats.
  { exists [], address_stats. split; [done|]. simpl. lia. }
  unfold successful_calls. cbn [aggregate_loop List.filter].
  destruct (counted vault_address tx) eqn:Hc.
  - pose proof Htx as [Hsender Hread]. destruct (Hread Hc) as [[hash Hhash] [n Hn]].
    destruct Hsender as [a Ha].
    { unfold counted in Hc. by apply andb_true_iff in Hc as [? _]. }
    rewrite (loop_body_counted _ _ _ a hash n) by done.
    rewrite bind_returned.
    destruct (IH (<[a := {| successful := successful (entry_of address_stats a)
                                          + (if n =? 0 then 1 else 0) |}]>
                    address_stats)) as (t & final & -> & Hsum).
    eexists _, final. split; [reflexivity|].
    rewrite Hsum, values_sum_insert. unfold successful_calls.
    assert (Hsucc : succeeded tx = (n =? 0)).
    { unfold succeeded. rewrite Hn. destruct (Z.eqb_spec n 0) as [->|Hne].
      - by rewrite bool_decide_eq_true_2.
      - rewrite bool_decide_eq_false_2; [done | congruence]. }
    rewrite Hsucc. destruct (n =? 0); simpl length; lia.
  - rewrite loop_body_skipped, bind_returned, prepend_nil by done.
    destruct (IH address_stats) as (t & final & -> & Hsum).
    by exists t, final.
Qed.


(** Over readable records (as above), as soon as one counted record
    succeeded the function returns normally; the maximum it prints is the
    largest count of an operator of the final map, reached by some operator;
    and the quotient it prints last is a share: that maximum over the number
    of successful counted records, above 0 and at most 1 (the exact quotient,
    which the program prints rounded to a double). *)
Theorem exposure_is_a_share (vault_address : string)
    (transactions : list TransactionRecord) :
  Forall (readable vault_address) transactions →
  successful_calls vault_address transactions ≠ [] →
  ∃ t u final max_validators,
    aggregate_loop vault_address transactions ∅ = (t, Returned final) ∧
    (∃ a stats, final !! a = Some stats ∧ successful stats = max_validators) ∧
    (∀ a stats, final !! a = Some stats → successful stats ≤ max_validators) ∧
    summarize_transactions vault_address transactions
    = (u ++ [Printed (LineMax max_validators);
             Printed (LineExposure
                        (inject_Z max_validators
                         / inject_Z (Z.of_nat (length (successful_calls
                                                         vault_address transactions)))));
             Logged INFO (MsgText "Validator summary generated successfully.")],
       Returned tt) ∧
    0 < max_validators ≤ Z.of_nat (length (successful_calls vault_address transactions)) ∧
    (0 < inject_Z max_validators
         / inject_Z (Z.of_nat (length (successful_calls vault_address transactions)))
     ∧ inject_Z max_validators
       / inject_Z (Z.of_nat (length (successful_calls vault_address transactions)))
       <= 1)%Q.
Proof.
  intros Hread Hsome.
  destruct (aggregate_loop_total vault_address transactions Hread ∅)
    as (t & final & Hrun & Hsum).
  set (total := Z.of_nat (length (successful_calls vault_address transactions))) in *.
  assert (Htotal : total_of final = total) by by rewrite total_of_operators, Hsum.
  assert (Hpos : 0 < total).
  { unfold total. destruct (successful_calls vault_address transactions); [done|].
    simpl length. lia. }
  assert (Hne : final ≠ ∅).
  { intros ->. rewrite total_of_operators in Htotal. unfold values in Htotal.
    rewrite map_to_list_empty in Htotal. simpl in Htotal. lia. }
  assert (Hkept : well_kept final).
  { eapply aggregate_loop_kept; [|exact Hrun].
    intros a stats. by rewrite lookup_empty. }
  destruct (report_nonempty final Hne) as (mx & Hlast & Hreport).
  destruct (last_StronglySorted _ _ (sorted_StronglySorted _) Hlast)
    as [Hmx_in Hmx_max].
  assert (Hvalues : ∀ x, x ∈ successful <$> values final → 0 ≤ x ∧ x ≤ mx).
  { intros x (stats & -> & [a Ha]%elem_of_values)%list_elem_of_fmap. split.
    - by destruct (Hkept a stats Ha).
    - apply Hmx_max, elem_of_sorted_counts. by exists a, stats. }
  assert (Hmx : 0 < mx ≤ total).
  { rewrite <- Htotal, total_of_operators. split.
    - destruct (Z.lt_ge_cases 0 mx) as [|Hle]; [done|].
      assert (sum_Z (successful <$> values final) ≤ 0).
      { apply sum_Z_nonpos. intros x Hx. destruct (Hvalues x Hx). lia. }
      rewrite total_of_operators in Htotal. lia.
    - apply sum_Z_bounds; [intros x Hx; by destruct (Hvalues x Hx)|].
      apply elem_of_sorted_counts in Hmx_in as (a & stats & Ha & <-).
      apply list_elem_of_fmap. exists stats. split; [done|].
      apply elem_of_values. by exists a. }
  exists t,
         (t ++ (Printed <$> (bucket_line (histogram final)
                               <$> sorted (keys (histogram final))))
            ++ [Printed (LineTotal total)]),
         final, mx.
  split; [done|].
  split; [by apply elem_of_sorted_counts|].
  split.
  { intros a stats Ha. apply Hmx_max, elem_of_sorted_counts. by exists a, stats. }
  split; [|split; [done | apply Qshare; lia]].
  unfold summarize_transactions. rewrite Hrun, bind_returned, Hreport, Htotal.
  unfold exposure. destruct (Z.eqb_spec total 0) as [|_]; [lia|].
  unfold prepend. cbn [fst snd]. by rewrite <- !app_assoc.
Qed.

End SummaryFacts.


Lemma exposure_is_a_share_witness :
  ∃ u max_validators,
    @summarize_transactions sample_checksum NODESET_VAULT_ADDRESS
      (sample_transactions ++ failed_transactions)
    = (u ++ [Printed (LineMax max_validators);
             Printed (LineExposure (inject_Z max_validators / inject_Z 4));
             Logged INFO (MsgText "Validator summary generated successfully.")],
       Returned tt) ∧
    0 < max_validators ≤ 4.
Proof.
  destruct (@exposure_is_a_share sample_checksum NODESET_VAULT_ADDRESS
              (sample_transactions ++ failed_transactions))
    as (t & u & final & mx & _ & _ & _ & Hrun & Hmx & _).
  - apply Forall_app. split;
      [exact sample_transactions_readable | exact failed_transactions_readable].
  - discriminate.
  - exists u, mx. split; [exact Hrun | exact Hmx].
Defined.

Lemma filter_Permutation_bool {A} (f : A → bool) l1 l2 :
  l1 ≡ₚ l2 → List.filter f l1 ≡ₚ List.filter f l2.
Proof.
  induction 1 as [|x l1 l2 _ IH|x y l|l1 l2 l3 _ IH1 _ IH2]; simpl.
  - done.
  - destruct (f x); [by constructor | done].
  - destruct (f x), (f y); try done. apply perm_swap.
  - by etrans.
Qed.

Section OrderOfTheRecords.

Context `{Web3}.

(** The summary does not depend on the order of the fetched records: two
    readable lists that are permutations of each other lead to the same
    operator map, the same printed lines and the same end. *)
Theorem summary_ignores_order (vault_address : string)
    (transactions transactions' : list TransactionRecord) :
  transactions ≡ₚ transactions' →
  Forall (readable vault_address) transactions →
  ∃ t t' final,
    aggregate_loop vault_address transactions ∅ = (t, Returned final) ∧
    aggregate_loop vault_address transactions' ∅ = (t', Returned final) ∧
    printed (summarize_transactions vault_address transactions).1
    = printed (summarize_transactions vault_address transactions').1 ∧
    (summarize_transactions vault_address transactions).2
    = (summarize_transactions vault_address transactions').2.
Proof.
  intros Hperm Hread.
  assert (Hread' : Forall (readable vault_address) transactions')
    by by rewrite <- Hperm.
  destruct (aggregate_loop_from_empty vault_address transactions Hread)
    as (t & final & Hrun & Hfinal).
  destruct (aggregate_loop_from_empty vault_address transactions' Hread')
    as (t' & final' & Hrun' & Hfinal').
  assert (Heq : final' = final).
  { apply map_eq. intros a. rewrite Hfinal, Hfinal'.
    assert (Hcalls : calls_of vault_address a transactions
                     ≡ₚ calls_of vault_address a transactions')
      by by apply filter_Permutation_bool.
    assert (Hsucc : successes (calls_of vault_address a transactions)
                    = successes (calls_of vault_address a transactions')).
    { unfold successes. f_equal. apply Permutation_length.
      by apply filter_Permutation_bool. }
    destruct (calls_of vault_address a transactions) as [|c calls],
             (calls_of vault_address a transactions') as [|c' calls'].
    - done.
    - by apply Permutation_nil_cons in Hcalls.
    - symmetry in Hcalls. by apply Permutation_nil_cons in Hcalls.
    - by rewrite Hsucc. }
  subst final'. exists t, t', final. split; [done|]. split; [done|].
  assert (Hp : printed t = [] ∧ printed t' = []).
  { destruct (aggregate_loop_cases vault_address transactions ∅)
      as (u & o & Hu & Hpu & _).
    destruct (aggregate_loop_cases vault_address transactions' ∅)
      as (u' & o' & Hu' & Hpu' & _).
    rewrite Hrun in Hu. rewrite Hrun' in Hu'.
    injection Hu as -> _. injection Hu' as -> _. done. }
  destruct Hp as [Hp Hp'].
  unfold summarize_transactions. rewrite Hrun, Hrun', !bind_returned.
  unfold prepend. cbn [fst snd]. by rewrite !printed_app, Hp, Hp'.
Qed.

End OrderOfTheRecords.

Lemma summary_ignores_order_witness :
  printed (@summarize_transactions sample_checksum NODESET_VAULT_ADDRESS
             sample_transactions).1
  = printed (@summarize_transactions sample_checksum NODESET_VAULT_ADDRESS
               (reverse sample_transactions)).1.
Proof.
  destruct (@summary_ignores_order sample_checksum NODESET_VAULT_ADDRESS
              sample_transactions (reverse sample_transactions))
    as (_ & _ & _ & _ & _ & Hprinted & _).
  - symmetry. apply reverse_Permutation.
  - exact sample_transactions_readable.
  - exact Hprinted.
Defined.

(** ** TransactionHistoryFetcher: what is returned, and when *)

(** One pass through the body of the [for] loop, by what the reply holds: a
    reply that is not a page of data returns what was accumulated or, on a 429
    before the last attempt, continues; a page of data is added, and the loop
    goes on to the next page when the page has [PAGE_OFFSET] records. *)
Lemma attempt_once_flow r page attempt all_transactions :
  ∃ t fl,
    attempt_once r page attempt all_transactions = (HttpGet page :: t, Returned fl) ∧
    requested_pages t = [] ∧
    match page_of r with
    | Some transactions =>
        fl = if Z.of_nat (length transactions) <? PAGE_OFFSET
             then Return (all_transactions ++ transactions)
             else Break (all_transactions ++ transactions)
    | None =>
        fl = Return all_transactions
        ∨ (fl = Continue ∧ attempt < MAX_RETRIES - 1)
    end.
Proof.
  destruct (page_of r) as [transactions|] eqn:Hpage.
  { rewrite (attempt_once_page _ transactions) by done. by eexists _, _. }
  unfold page_of in Hpage.
  unfold attempt_once, try_body, handler, try_except.
  destruct r as [|status_code b].
  { run_M. eexists _, _. split; [reflexivity|]. split; [done | by left]. }
  destruct (raises_for_status status_code) eqn:Hraise.
  { run_M. destruct (status_code =? 429); simpl;
      [destruct (Z.ltb_spec attempt (MAX_RETRIES - 1)); simpl|];
      eexists _, _; (split; [reflexivity|]); (split; [done|]); auto. }
  destruct b as [from_requests|data].
  { run_M. destruct from_requests; simpl;
      eexists _, _; (split; [reflexivity|]); (split; [done|]); by left. }
  destruct (decide (status data = Some "0")); [|done].
  run_M. eexists _, _. split; [reflexivity|]. split; [done | by left].
Qed.

(** What the fetcher returns is what it started from followed by the records
    of whole pages of data, taken from the replies in their order: no record
    comes from anywhere else, none is reordered, and no page is split. *)
Theorem fetch_returns_whole_pages (script : list reply) (page attempt : Z)
    (all_transactions : list TransactionRecord) (t : list event)
    (l : list TransactionRecord) :
  fetch_loop script page attempt all_transactions = (t, Returned l) →
  ∃ pages,
    sublist pages script ∧
    Forall (λ r, is_Some (page_of r)) pages ∧
    l = all_transactions ++ concat (records_of <$> pages).
Proof.
  revert page attempt all_transactions t.
  induction script as [|r script IH]; intros page attempt all_transactions t;
    [done|].
  rewrite fetch_loop_cons.
  destruct (attempt_once_flow r page attempt all_transactions)
    as (u & fl & -> & _ & Hfl).
  rewrite bind_returned. unfold prepend. cbn [fst snd].
  destruct (page_of r) as [transactions|] eqn:Hpage.
  - assert (Hrec : records_of r = transactions)
      by (unfold records_of; by rewrite Hpage).
    subst fl. destruct (_ <? PAGE_OFFSET).
    + intros [= _ <-]. exists [r]. split; [|split].
      * apply sublist_skip, sublist_nil_l.
      * constructor; [by rewrite Hpage | constructor].
      * simpl. by rewrite Hrec, app_nil_r.
    + destruct (fetch_loop script (page + 1) 0 (all_transactions ++ transactions))
        as [v o] eqn:Hrest.
      cbn [fst snd]. intros [= _ ->].
      destruct (IH _ _ _ _ Hrest) as (pages & Hsub & Hpages & ->).
      exists (r :: pages). split; [|split].
      * by apply sublist_skip.
      * constructor; [by rewrite Hpage | done].
      * rewrite fmap_cons. simpl. by rewrite Hrec, app_assoc.
  - destruct Hfl as [->|[-> _]].
    + intros [= _ <-]. exists []. split; [apply sublist_nil_l|].
      split; [constructor|]. simpl. by rewrite app_nil_r.
    + destruct (fetch_loop script page _ all_transactions) as [v o] eqn:Hrest.
      cbn [fst snd]. intros [= _ ->].
      destruct (IH _ _ _ _ Hrest) as (pages & Hsub & Hpages & ->).
      exists pages. split; [by apply sublist_cons | done].
Qed.

Lemma fetch_returns_whole_pages_witness :
  ∃ pages,
    sublist pages [Response 429 (NotJson true); sample_page 1000;
                   Response 429 (NotJson true); sample_page 3; sample_page 5] ∧
    Forall (λ r, is_Some (page_of r)) pages ∧
    replicate 1003 (sample_tx ADDRESS_A VAULT_CALL "0")
    = [] ++ concat (records_of <$> pages).
Proof.
  apply (fetch_returns_whole_pages _ 1 0 []
           [HttpGet 1; Sleep 2; HttpGet 1; Logged INFO (MsgFetched 1000 1);
            HttpGet 2; Sleep 2; HttpGet 2; Logged INFO (MsgFetched 3 2)]).
  vm_compute. reflexivity.
Defined.

(** Once the replies hold no full page, the fetcher returns within three
    requests, all for the same page: a reply that is not retried ends the run,
    and only a 429 is retried, twice at most. *)
Theorem no_full_page_returns_within_three (r1 r2 r3 : reply)
    (rest : list reply) (page : Z) (all_transactions : list TransactionRecord) :
  is_full_page r1 = false →
  is_full_page r2 = false →
  is_full_page r3 = false →
  ∃ t l n,
    fetch_loop (r1 :: r2 :: r3 :: rest) page 0 all_transactions = (t, Returned l) ∧
    requested_pages t = replicate n page ∧ (1 ≤ n ≤ 3)%nat.
Proof.
  assert (Hstep : ∀ r attempt,
            is_full_page r = false →
            ∃ u fl,
              attempt_once r page attempt all_transactions
              = (HttpGet page :: u, Returned fl) ∧
              requested_pages u = [] ∧
              ((∃ l, fl = Return l) ∨ (fl = Continue ∧ attempt < MAX_RETRIES - 1))).
  { intros r attempt Hr.
    destruct (attempt_once_flow r page attempt all_transactions)
      as (u & fl & Hrun & Hreq & Hfl).
    exists u, fl. split; [done|]. split; [done|].
    unfold is_full_page in Hr. destruct (page_of r) as [transactions|].
    - apply Z.leb_gt in Hr. apply Z.ltb_lt in Hr. rewrite Hr in Hfl.
      left. by eexists.
    - destruct Hfl as [->|?]; [left; by eexists | by right]. }
  assert (Hreq : ∀ u v, requested_pages u = [] →
            requested_pages ((HttpGet page :: u) ++ v) = page :: requested_pages v).
  { intros u v Hu. rewrite requested_pages_app.
    change (requested_pages (HttpGet page :: u)) with (page :: requested_pages u).
    by rewrite Hu. }
  intros H1 H2 H3.
  destruct (Hstep r1 0 H1) as (u1 & fl1 & E1 & Q1 & [[l1 ->]|[-> _]]).
  { rewrite fetch_loop_cons, E1, bind_returned. unfold prepend. cbn [fst snd].
    eexists _, l1, 1%nat. split; [reflexivity|].
    rewrite Hreq by done. split; [done | lia]. }
  destruct (Hstep r2 1 H2) as (u2 & fl2 & E2 & Q2 & [[l2 ->]|[-> _]]).
  { rewrite fetch_loop_cons, E1, bind_returned. cbn [Z.add Z.ltb Z.compare MAX_RETRIES].
    change (if 0 + 1 <? MAX_RETRIES then 0 + 1 else 0) with 1.
    rewrite fetch_loop_cons, E2, bind_returned. unfold prepend. cbn [fst snd].
    eexists _, l2, 2%nat. split; [reflexivity|].
    rewrite !Hreq by done. split; [done | lia]. }
  destruct (Hstep r3 2 H3) as (u3 & fl3 & E3 & Q3 & [[l3 ->]|[_ Hlt]]);
    [|unfold MAX_RETRIES in Hlt; lia].
  rewrite fetch_loop_cons, E1, bind_returned.
  change (if 0 + 1 <? MAX_RETRIES then 0 + 1 else 0) with 1.
  rewrite fetch_loop_cons, E2, bind_returned.
  change (if 1 + 1 <? MAX_RETRIES then 1 + 1 else 0) with 2.
  rewrite fetch_loop_cons, E3, bind_returned. unfold prepend. cbn [fst snd].
  eexists _, l3, 3%nat. split; [reflexivity|].
  rewrite !Hreq by done. split; [done | lia].
Qed.

Lemma no_full_page_returns_within_three_witness :
  ∃ t l n,
    fetch_loop [Response 429 (NotJson true); Response 429 (NotJson true);
                sample_page 7; sample_page 1000] 1 0 []
    = (t, Returned l) ∧
    requested_pages t = replicate n 1 ∧ (1 ≤ n ≤ 3)%nat.
Proof.
  apply (no_full_page_returns_within_three
           (Response 429 (NotJson true)) (Response 429 (NotJson true))
           (sample_page 7) [sample_page 1000] 1 []); reflexivity.
Defined.

(** The three attempts are per page: after two 429 a full page is taken on
    the third attempt like on the first, and the next page starts again at
    the first attempt. *)
Theorem retries_are_per_page (b1 b2 : body) (r : reply)
    (transactions : list TransactionRecord) (rest : list reply) (page : Z)
    (all_transactions : list TransactionRecord) :
  page_of r = Some transactions →
  PAGE_OFFSET ≤ Z.of_nat (length transactions) →
  fetch_loop (Response 429 b1 :: Response 429 b2 :: r :: rest) page 0
    all_transactions
  = prepend [HttpGet page; Sleep 2; HttpGet page; Sleep 4; HttpGet page;
             Logged INFO (MsgFetched (Z.of_nat (length transactions)) page)]
      (fetch_loop rest (page + 1) 0 (all_transactions ++ transactions)).
Proof.
  intros Hpage Hfull. rewrite fetch_loop_rate_limited.
  change (0 <? MAX_RETRIES - 1) with true. cbv iota.
  change (if 0 + 1 <? MAX_RETRIES then 0 + 1 else 0) with 1.
  rewrite fetch_loop_rate_limited.
  change (1 <? MAX_RETRIES - 1) with true. cbv iota.
  change (if 1 + 1 <? MAX_RETRIES then 1 + 1 else 0) with 2.
  rewrite fetch_loop_cons, (attempt_once_page _ transactions) by done.
  destruct (Z.ltb_spec (Z.of_nat (length transactions)) PAGE_OFFSET); [lia|].
  by rewrite bind_returned, !prepend_prepend.
Qed.

Lemma retries_are_per_page_witness :
  fetch_loop [Response 429 (NotJson true); Response 429 (NotJson false);
              sample_page 1000; Response 429 (NotJson true); sample_page 2] 1 0 []
  = prepend [HttpGet 1; Sleep 2; HttpGet 1; Sleep 4; HttpGet 1;
             Logged INFO (MsgFetched (Z.of_nat (length
               (replicate 1000 (sample_tx ADDRESS_A VAULT_CALL "0")))) 1)]
      (fetch_loop [Response 429 (NotJson true); sample_page 2] (1 + 1) 0
         ([] ++ replicate 1000 (sample_tx ADDRESS_A VAULT_CALL "0"))).
Proof.
  apply (retries_are_per_page (NotJson true) (NotJson false) (sample_page 1000)).
  - reflexivity.
  - rewrite length_replicate. unfold PAGE_OFFSET. lia.
Defined.

(** ** The whole run: [summarize_validators_by_operator] and [main] *)

Lemma report_cases (address_stats : gmap string OperatorStats) :
  ∃ t o,
    report address_stats = (t, o) ∧
    Forall (λ e, is_network e = false) t ∧
    (o = Returned tt ∨ o = Raised ZeroDivisionError).
Proof.
  destruct (decide (address_stats = ∅)) as [->|Hne].
  { eexists _, _. split; [reflexivity|]. split; [by repeat constructor | by left]. }
  destruct (report_nonempty address_stats Hne) as (mx & _ & ->).
  unfold prepend, exposure.
  destruct (total_of address_stats =? 0); cbn [fst snd];
    eexists _, _; (split; [reflexivity|]); (split; [|auto]);
    repeat (apply Forall_app; split); try by repeat constructor.
  all: apply Forall_fmap, Forall_true; done.
Qed.

Lemma attempt_once_prints_nothing r page attempt all_transactions :
  printed (attempt_once r page attempt all_transactions).1 = [].
Proof.
  unfold attempt_once, try_body, handler, try_except.
  destruct r as [|status_code b]; [done|].
  destruct (raises_for_status status_code) eqn:Hraise.
  { run_M. destruct (status_code =? 429); simpl;
      [destruct (attempt <? MAX_RETRIES - 1)|]; done. }
  destruct b as [[]|data]; [done..|].
  run_M. destruct (decide (status data = Some "0")); [done|].
  simpl. by destruct (_ <? PAGE_OFFSET).
Qed.

Lemma fetch_loop_prints_nothing script page attempt all_transactions :
  printed (fetch_loop script page attempt all_transactions).1 = [].
Proof.
  revert page attempt all_transactions.
  induction script as [|r script IH]; intros page attempt all_transactions;
    [done|].
  rewrite fetch_loop_cons.
  pose proof (attempt_once_prints_nothing r page attempt all_transactions) as Hp.
  destruct (attempt_once_cases r page attempt all_transactions)
    as (t & fl & Hrun & _).
  rewrite Hrun in Hp |- *. cbn [fst] in Hp.
  rewrite bind_returned. unfold prepend. cbn [fst].
  rewrite printed_app, Hp. destruct fl; [done | apply IH | apply IH].
Qed.

Section WholeRun.

Context `{Web3}.

Lemma summarize_transactions_cases vault_address transactions :
  ∃ t o,
    summarize_transactions vault_address transactions = (t, o) ∧
    Forall (λ e, is_network e = false) t ∧
    (o = Returned tt ∨ ∃ e, o = Raised e ∧ aggregation_error e).
Proof.
  unfold summarize_transactions, aggregation_error.
  destruct (aggregate_loop_cases vault_address transactions ∅)
    as (t & o & -> & _ & Hnet & Ho).
  destruct Ho as [[final ->]|Hraised].
  - rewrite bind_returned.
    destruct (report_cases final) as (u & o' & -> & Hnet' & Ho').
    unfold prepend. cbn [fst snd]. eexists _, _. split; [reflexivity|].
    split; [by apply Forall_app|].
    destruct Ho' as [->| ->]; [by left | right; eexists; eauto 6].
  - destruct Hraised as [->|[->| ->]];
      (eexists t, _; split; [reflexivity|]; split; [done|];
       right; eexists; eauto 6).
Qed.

(** The shape of a run of [summarize_validators_by_operator]: it stops
    before any request (node not reachable, a constant address rejected), or
    it fetches and summarizes what was fetched. *)
Lemma run_cases connected script :
  summarize_validators_by_operator connected script
  = ([Logged ERROR MsgConnectFailed], Raised ConnectionError)
  ∨ summarize_validators_by_operator connected script = ([], Raised ValueError)
  ∨ ∃ vault_address,
      to_checksum_address NODESET_VAULT_ADDRESS = Some vault_address ∧
      connected = true ∧
      summarize_validators_by_operator connected script
      = (fetch_multicall_transactions script
           ≫= summarize_transactions vault_address).
Proof.
  unfold summarize_validators_by_operator, setup_web3, checksum.
  destruct connected; [|by left]. cbv iota. rewrite bind_mret.
  destruct (to_checksum_address MULTICALL_ADDRESS) as [m|]; [|right; by left].
  cbn [from_option]. rewrite bind_mret.
  destruct (to_checksum_address NODESET_VAULT_ADDRESS) as [v|]; [|right; by left].
  cbn [from_option]. rewrite bind_mret. right. right. by exists v.
Qed.

(** Without an API key (the variable not set, or set to the empty string),
    and with a key but a node that does not answer, [main] logs one ERROR
    line and raises, [ValueError] in the first case and [ConnectionError] in
    the second, before any request to the indexing API. *)
Theorem main_fails_before_any_request (api_key eth_client_url : option string)
    (connected : bool) (script : list reply) :
  from_option PyStr.truthy false api_key = false ∨ connected = false →
  main api_key eth_client_url connected script
  = if from_option PyStr.truthy false api_key
    then ([Logged ERROR MsgConnectFailed], Raised ConnectionError)
    else ([Logged ERROR (MsgText "Etherscan API key not provided.")],
          Raised ValueError).
Proof.
  unfold main. destruct (from_option PyStr.truthy false api_key); simpl.
  - intros [Hkey | ->]; [discriminate | reflexivity].
  - done.
Qed.

(** A fetch that fails after some full pages does not fail the run: the
    summary is made of the records of those pages, as if the history had
    ended there. *)
Theorem fetch_failure_still_summarized (api_key : string)
    (eth_client_url : option string) (multicall_address vault_address : string)
    (pages : list reply) (r : reply) (rest : list reply) :
  PyStr.truthy api_key = true →
  to_checksum_address MULTICALL_ADDRESS = Some multicall_address →
  to_checksum_address NODESET_VAULT_ADDRESS = Some vault_address →
  Forall (λ r, is_full_page r = true) pages →
  fails r = true →
  ∃ msg,
    main (Some api_key) eth_client_url true (pages ++ r :: rest)
    = prepend (full_pages_trace 1 pages
               ++ [HttpGet (1 + Z.of_nat (length pages)); Logged ERROR msg])
        (summarize_transactions vault_address (concat (records_of <$> pages))).
Proof.
  intros Hkey Hm Hv Hfull Hr.
  destruct (fetch_loop_fails r rest (1 + Z.of_nat (length pages))
              (if decide (pages = []) then 0 else 0)
              ([] ++ concat (records_of <$> pages)) Hr) as [msg Hfetch].
  exists msg. unfold main. simpl from_option. rewrite Hkey. simpl negb. cbv iota.
  unfold summarize_validators_by_operator, setup_web3, checksum.
  rewrite bind_mret, Hm. cbn [from_option]. rewrite bind_mret, Hv.
  cbn [from_option]. rewrite bind_mret.
  unfold fetch_multicall_transactions.
  rewrite fetch_loop_full_pages, Hfetch by done.
  unfold prepend at 1. cbn [fst snd app]. by rewrite bind_returned.
Qed.

(** In a run of [main] nothing is printed before the last request or sleep:
    the trace is the fetching, which prints nothing, followed by the
    aggregation and the report, which make no request and never sleep. *)
Theorem main_prints_after_fetching (api_key eth_client_url : option string)
    (connected : bool) (script : list reply) :
  ∃ t1 t2,
    (main api_key eth_client_url connected script).1 = t1 ++ t2 ∧
    printed t1 = [] ∧
    Forall (λ e, is_network e = false) t2.
Proof.
  unfold main.
  destruct (from_option PyStr.truthy false api_key); simpl negb; cbv iota.
  2:{ exists [], [Logged ERROR (MsgText "Etherscan API key not provided.")].
      split; [reflexivity|]. split; [reflexivity | by repeat constructor]. }
  destruct (run_cases connected script) as [->|[->|(v & _ & _ & ->)]].
  - exists [], [Logged ERROR MsgConnectFailed].
    split; [reflexivity|]. split; [reflexivity | by repeat constructor].
  - exists [], []. split; [reflexivity|]. split; [reflexivity | constructor].
  - unfold fetch_multicall_transactions.
    pose proof (fetch_loop_prints_nothing script 1 0 []) as Hp.
    destruct (fetch_loop script 1 0 []) as [t [l|e'|]]; cbn [fst] in Hp.
    + rewrite bind_returned. unfold prepend. cbn [fst].
      destruct (summarize_transactions_cases v l) as (u & o & -> & Hnet & _).
      by exists t, u.
    + exists t, []. rewrite app_nil_r. split; [reflexivity|].
      split; [done | constructor].
    + exists t, []. rewrite app_nil_r. split; [reflexivity|].
      split; [done | constructor].
Qed.

End WholeRun.

Lemma main_fails_before_any_request_witness :
  @main sample_checksum (Some "") None true [sample_page 3]
  = ([Logged ERROR (MsgText "Etherscan API key not provided.")],
     Raised ValueError).
Proof.
  apply (@main_fails_before_any_request sample_checksum (Some "") None true
           [sample_page 3]).
  left. reflexivity.
Defined.

Lemma fetch_failure_still_summarized_witness :
  ∃ msg,
    @main sample_checksum (Some "KEY") None true
      ([sample_page 1000] ++ Unreachable :: [sample_page 3])
    = prepend (full_pages_trace 1 [sample_page 1000]
               ++ [HttpGet (1 + Z.of_nat (length [sample_page 1000]));
                   Logged ERROR msg])
        (@summarize_transactions sample_checksum
           (PyStr.lower NODESET_VAULT_ADDRESS)
           (concat (records_of <$> [sample_page 1000]))).
Proof.
  apply (@fetch_failure_still_summarized sample_checksum "KEY" None
           (PyStr.lower MULTICALL_ADDRESS) (PyStr.lower NODESET_VAULT_ADDRESS)
           [sample_page 1000] Unreachable [sample_page 3]).
  - reflexivity.
  - reflexivity.
  - reflexivity.
  - apply Forall_cons_2; [reflexivity | apply Forall_nil_2].
  - reflexivity.
Defined.

